(** * A fixed-capacity memtable behind a read-write lock (program.c)

    Shallow embedding of [lsm_init], [lsm_add] and [lsm_get], of the worker
    routines [writer_thread] and [reader_thread] run on their own, and of the
    report that ends [main], with the properties of the table they maintain.
    The C functions mutate the tree
    they are handed, print on the standard streams and take and release the
    tree's [pthread_rwlock_t]; here they are computations in a small monad
    that threads the tree, collects the events of the call in order, and can
    stop the process ([exit]) or have no defined behaviour (an access outside
    the allocated block). *)

From stdpp Require Import base numbers list strings pretty.

Open Scope Z_scope.

(** ** C integers *)

Module CInt.

Definition INT_MIN : Z := - 2 ^ 31.
Definition INT_MAX : Z := 2 ^ 31 - 1.

Definition int_range (z : Z) : Prop := INT_MIN <= z <= INT_MAX.

(** Two's-complement reduction of a mathematical result to [int]. *)
Definition wrap_int (z : Z) : Z := (z + 2 ^ 31) `mod` 2 ^ 32 - 2 ^ 31.

(** [EXIT_FAILURE] of <stdlib.h>. *)
Definition EXIT_FAILURE : Z := 1.

End CInt.
Export CInt.

(** ** Data: [Entry] and [LSMTree] *)

(** [typedef struct { int key; int value; int in_use; } Entry;] *)
Record Entry : Type := mkEntry {
  key : Z;
  value : Z;
  in_use : Z   (* 1 when the slot is used, 0 when empty *)
}.

(** [LSMTree]: [memtable] is the block the pointer designates, one list
    element per allocated [Entry]; the lock is not a value of this record,
    its operations appear as events of the calls. *)
Record LSMTree : Type := mkLSMTree {
  memtable : list Entry;
  memtable_max : Z;
  memtable_count : Z
}.

Definition with_key (k : Z) (e : Entry) : Entry :=
  {| key := k; value := value e; in_use := in_use e |}.
Definition with_value (v : Z) (e : Entry) : Entry :=
  {| key := key e; value := v; in_use := in_use e |}.
Definition with_in_use (b : Z) (e : Entry) : Entry :=
  {| key := key e; value := value e; in_use := b |}.

(** ** Effects *)

Inductive Event : Type :=
  | RwlockInit                (* pthread_rwlock_init *)
  | Wrlock                    (* pthread_rwlock_wrlock *)
  | Rdlock                    (* pthread_rwlock_rdlock *)
  | Unlock                    (* pthread_rwlock_unlock *)
  | Stdout (line : string)    (* printf *)
  | Stderr (line : string).   (* fprintf(stderr, ...) *)

Inductive outcome (A : Type) : Type :=
  | Returns (a : A) (t : LSMTree) (log : list Event)
  | Exits (status : Z) (log : list Event)
  | Undefined.
Arguments Returns {A} a t log.
Arguments Exits {A} status log.
Arguments Undefined {A}.

Definition M (A : Type) : Type := LSMTree -> outcome A.

Definition ret {A} (a : A) : M A := fun t => Returns a t [].

Definition bind {A B} (m : M A) (f : A -> M B) : M B := fun t =>
  match m t with
  | Returns a t1 l1 =>
      match f a t1 with
      | Returns b t2 l2 => Returns b t2 (l1 ++ l2)
      | Exits s l2 => Exits s (l1 ++ l2)
      | Undefined => Undefined
      end
  | Exits s l1 => Exits s l1
  | Undefined => Undefined
  end.

Notation "x <- m ;; k" := (bind m (fun x => k))
  (at level 100, m at next level, right associativity).
Notation "m ;; k" := (bind m (fun _ => k))
  (at level 100, right associativity).

Definition get_tree : M LSMTree := fun t => Returns t t [].
Definition emit (e : Event) : M unit := fun t => Returns tt t [e].
Definition exit {A} (status : Z) : M A := fun _ => Exits status [].
Definition undefined {A} : M A := fun _ => Undefined.

(** Field assignments [tree->f = x]. *)
Definition with_memtable (b : list Entry) (t : LSMTree) : LSMTree :=
  {| memtable := b; memtable_max := memtable_max t;
     memtable_count := memtable_count t |}.
Definition with_memtable_max (n : Z) (t : LSMTree) : LSMTree :=
  {| memtable := memtable t; memtable_max := n;
     memtable_count := memtable_count t |}.
Definition with_memtable_count (n : Z) (t : LSMTree) : LSMTree :=
  {| memtable := memtable t; memtable_max := memtable_max t;
     memtable_count := n |}.

Definition set_memtable (b : list Entry) : M unit := fun t =>
  Returns tt (with_memtable b t) [].
Definition set_memtable_max (n : Z) : M unit := fun t =>
  Returns tt (with_memtable_max n t) [].
Definition set_memtable_count (n : Z) : M unit := fun t =>
  Returns tt (with_memtable_count n t) [].

(** [tree->memtable[i]] as an rvalue: defined only inside the block. *)
Definition load (i : Z) : M Entry := fun t =>
  if i <? 0 then Undefined
  else match memtable t !! Z.to_nat i with
       | Some e => Returns e t []
       | None => Undefined
       end.

(** [tree->memtable[i].f = x]: one field of one slot is written. *)
Definition store (upd : Entry -> Entry) (i : Z) : M unit :=
  e <- load i ;;
  t <- get_tree ;;
  set_memtable (<[Z.to_nat i := upd e]> (memtable t)).

(** The lock calls and the stream output of the program. *)
Definition pthread_rwlock_init : M unit := emit RwlockInit.
Definition pthread_rwlock_wrlock : M unit := emit Wrlock.
Definition pthread_rwlock_rdlock : M unit := emit Rdlock.
Definition pthread_rwlock_unlock : M unit := emit Unlock.
Definition printf (line : string) : M unit := emit (Stdout line).
Definition fprintf_stderr (line : string) : M unit := emit (Stderr line).

(** The newline that ends each format string, and [%d]. *)
Definition nl : string := String (Ascii.ascii_of_nat 10) EmptyString.
Definition fmt_d (z : Z) : string := pretty z.

Definition msg_alloc_failed : string :=
  "Memtable allocation failed" +:+ nl.
Definition msg_full (k : Z) : string :=
  "Memtable full, cannot add key " +:+ fmt_d k +:+ " (would trigger flush)" +:+ nl.
Definition msg_added (k v : Z) : string :=
  "Writer: added key " +:+ fmt_d k +:+ ", value " +:+ fmt_d v +:+ nl.

(** ** The program *)

(** The test of both scans: [memtable[i].in_use && memtable[i].key == key]. *)
Definition matches (k : Z) (e : Entry) : bool :=
  negb (in_use e =? 0) && (key e =? k).

(** [for (int i = 0; i < max_entries; ++i) tree->memtable[i].in_use = 0;]
    entered at index [i] with [todo] iterations left. *)
Fixpoint init_loop (todo : nat) (i : Z) : M unit :=
  match todo with
  | O => ret tt
  | S todo' => store (with_in_use 0) i ;; init_loop todo' (i + 1)
  end.

(** [lsm_init].  [block] is what [malloc(sizeof(Entry) * max_entries)]
    hands back: [None] for [NULL], otherwise the fresh block, whose contents
    are whatever they are. *)
Definition lsm_init (block : option (list Entry)) (max_entries : Z) : M unit :=
  set_memtable_max max_entries ;;
  set_memtable_count 0 ;;
  match block with
  | None =>
      fprintf_stderr msg_alloc_failed ;;
      exit EXIT_FAILURE
  | Some b =>
      set_memtable b ;;
      init_loop (Z.to_nat max_entries) 0 ;;
      pthread_rwlock_init
  end.

(** The update scan of [lsm_add], entered at index [i] with [todo]
    iterations left; the result is [updated]. *)
Fixpoint add_loop (k v : Z) (todo : nat) (i : Z) : M Z :=
  match todo with
  | O => ret 0
  | S todo' =>
      e <- load i ;;
      if matches k e then
        store (with_value v) i ;;
        ret 1                        (* updated = 1; break; *)
      else add_loop k v todo' (i + 1)
  end.

(** [lsm_add]. *)
Definition lsm_add (k v : Z) : M unit :=
  pthread_rwlock_wrlock ;;
  t <- get_tree ;;
  updated <- add_loop k v (Z.to_nat (memtable_count t)) 0 ;;
  (if updated =? 0 then
     t <- get_tree ;;
     if memtable_count t <? memtable_max t then
       store (with_key k) (memtable_count t) ;;
       store (with_value v) (memtable_count t) ;;
       store (with_in_use 1) (memtable_count t) ;;
       set_memtable_count (wrap_int (memtable_count t + 1))
     else
       fprintf_stderr (msg_full k)
   else ret tt) ;;
  printf (msg_added k v) ;;
  pthread_rwlock_unlock.

(** The scan of [lsm_get], entered at index [i] with [todo] iterations
    left.  [out] is the content of the caller's [*out_value]; the result is
    [found] paired with the content of [*out_value] at the end. *)
Fixpoint get_loop (k : Z) (out : Z) (todo : nat) (i : Z) : M (Z * Z) :=
  match todo with
  | O => ret (0, out)
  | S todo' =>
      e <- load i ;;
      if matches k e then ret (1, value e)   (* *out_value = ...; found = 1; break; *)
      else get_loop k out todo' (i + 1)
  end.

(** [lsm_get]. *)
Definition lsm_get (k : Z) (out : Z) : M (Z * Z) :=
  pthread_rwlock_rdlock ;;
  t <- get_tree ;;
  r <- get_loop k out (Z.to_nat (memtable_count t)) 0 ;;
  pthread_rwlock_unlock ;;
  ret r.

(** A run of [lsm_add] calls, one per pair, in order. *)
Fixpoint lsm_add_all (ops : list (Z * Z)) : M unit :=
  match ops with
  | [] => ret tt
  | (k, v) :: ops' => lsm_add k v ;; lsm_add_all ops'
  end.

(** ** Vocabulary of the properties *)

(** The block holds [memtable_max] entries, as [lsm_init] allocates it, and
    [memtable_max] is a value of its type [int]. *)
Definition allocated (t : LSMTree) : Prop :=
  0 <= memtable_max t <= INT_MAX /\
  Z.of_nat (length (memtable t)) = memtable_max t.

(** The first [memtable_count] entries exist in the block. *)
Definition in_bounds (t : LSMTree) : Prop :=
  memtable_count t <= Z.of_nat (length (memtable t)).

(** Slot [i] is among the first [memtable_count], is in use, and has key [k]. *)
Definition match_at (k : Z) (t : LSMTree) (i : nat) (e : Entry) : Prop :=
  Z.of_nat i < memtable_count t /\ memtable t !! i = Some e /\
  matches k e = true.

Definition present (k : Z) (t : LSMTree) : Prop :=
  exists i e, match_at k t i e.

Definition absent (k : Z) (t : LSMTree) : Prop :=
  forall i e, Z.of_nat i < memtable_count t -> memtable t !! i = Some e ->
    matches k e = false.

(** Slot [i] is the first match in index-ascending order. *)
Definition first_match (k : Z) (t : LSMTree) (i : nat) (e : Entry) : Prop :=
  match_at k t i e /\
  forall j e', (j < i)%nat -> memtable t !! j = Some e' -> matches k e' = false.

(** The write that [lsm_add] refuses: the table is full and the key is new. *)
Definition rejected (k : Z) (t : LSMTree) : Prop :=
  absent k t /\ memtable_max t <= memtable_count t.

(** The invariant of the table. *)
Record table_inv (t : LSMTree) : Prop := mk_table_inv {
  inv_count : 0 <= memtable_count t <= memtable_max t;
  inv_used : forall i e, memtable t !! i = Some e ->
    Z.of_nat i < memtable_count t -> in_use e <> 0;
  inv_free : forall i e, memtable t !! i = Some e ->
    memtable_count t <= Z.of_nat i -> in_use e = 0;
  inv_distinct : forall i j ei ej,
    memtable t !! i = Some ei -> memtable t !! j = Some ej ->
    in_use ei <> 0 -> in_use ej <> 0 -> key ei = key ej -> i = j
}.

(** States of the table: what [lsm_init] returns on a block of
    [max_entries] entries, and what [lsm_add] returns from such a state. *)
Inductive reachable : LSMTree -> Prop :=
  | reach_init (t0 : LSMTree) (block : list Entry) (max_entries : Z)
        (t : LSMTree) (log : list Event) :
      0 <= max_entries <= INT_MAX ->
      Z.of_nat (length block) = max_entries ->
      lsm_init (Some block) max_entries t0 = Returns tt t log ->
      reachable t
  | reach_add (t : LSMTree) (k v : Z) (t' : LSMTree) (log : list Event) :
      reachable t ->
      lsm_add k v t = Returns tt t' log ->
      reachable t'.

(** The lines a call wrote on the standard error stream. *)
Fixpoint stderr_lines (log : list Event) : list string :=
  match log with
  | [] => []
  | Stderr s :: log' => s :: stderr_lines log'
  | _ :: log' => stderr_lines log'
  end.

(** What a call hands to its caller. *)
Definition returned {A} (o : outcome A) : option A :=
  match o with
  | Returns a _ _ => Some a
  | _ => None
  end.

(** The events of a call of [lsm_add] that stores, of one that is refused,
    and of a call of [lsm_get]. *)
Definition log_added (k v : Z) : list Event :=
  [Wrlock; Stdout (msg_added k v); Unlock].

Definition log_full (k v : Z) : list Event :=
  [Wrlock; Stderr (msg_full k); Stdout (msg_added k v); Unlock].

Definition log_get : list Event := [Rdlock; Unlock].

(** ** The lock calls of a call *)

Definition lock_call (e : Event) : bool :=
  match e with
  | Wrlock | Rdlock | Unlock | RwlockInit => true
  | Stdout _ | Stderr _ => false
  end.

(** ** Concrete tables *)

(** Before [lsm_init]: the zero-initialised global. *)
Definition tree_zero : LSMTree :=
  {| memtable := []; memtable_max := 0; memtable_count := 0 |}.

(** A block of two entries as [malloc] may hand it out. *)
Definition block2 : list Entry := [mkEntry 7 (-3) 5; mkEntry 0 0 9].

Definition tree_init2 : LSMTree :=
  {| memtable := [mkEntry 7 (-3) 0; mkEntry 0 0 0];
     memtable_max := 2; memtable_count := 0 |}.

Definition tree_one : LSMTree :=
  {| memtable := [mkEntry 1 10 1; mkEntry 0 0 0];
     memtable_max := 2; memtable_count := 1 |}.

Definition tree_full : LSMTree :=
  {| memtable := [mkEntry 1 10 1; mkEntry 2 20 1];
     memtable_max := 2; memtable_count := 2 |}.

(** Decision of [absent] by evaluation. *)
Definition absentb (k : Z) (t : LSMTree) : bool :=
  forallb (fun e => negb (matches k e))
    (take (Z.to_nat (memtable_count t)) (memtable t)).

(** ** The worker threads and the report of [main] *)

(** [typedef struct { int id; int operations; } ThreadArg;] *)
Record ThreadArg : Type := mkThreadArg {
  id : Z;
  operations : Z
}.

(** [usleep]: time passes, nothing else. *)
Definition usleep (usec : Z) : M unit := ret tt.

Definition msg_writer_finished (n : Z) : string :=
  "Writer thread " +:+ fmt_d n +:+ " finished" +:+ nl.
Definition msg_reader_finished (n : Z) : string :=
  "Reader thread " +:+ fmt_d n +:+ " finished" +:+ nl.
Definition msg_got (n k v : Z) : string :=
  "Reader " +:+ fmt_d n +:+ ": got key " +:+ fmt_d k +:+ " -> value " +:+
  fmt_d v +:+ nl.
Definition msg_not_found (n k : Z) : string :=
  "Reader " +:+ fmt_d n +:+ ": key " +:+ fmt_d k +:+ " not found" +:+ nl.
Definition msg_final (n : Z) : string :=
  "Final memtable contents (" +:+ fmt_d n +:+ " entries):" +:+ nl.
Definition msg_entry (k v : Z) : string :=
  "  key " +:+ fmt_d k +:+ " -> value " +:+ fmt_d v +:+ nl.

(** [int key = id * 100 + i;] and [int value = key * 10;] in [int]
    arithmetic. *)
Definition writer_key (n i : Z) : Z := wrap_int (wrap_int (n * 100) + i).
Definition writer_value (k : Z) : Z := wrap_int (k * 10).

(** The loop of [writer_thread], entered at [i] with [todo] iterations left. *)
Fixpoint writer_loop (n : Z) (todo : nat) (i : Z) : M unit :=
  match todo with
  | O => ret tt
  | S todo' =>
      let k := writer_key n i in
      let v := writer_value k in
      lsm_add k v ;;
      usleep 100000 ;;
      writer_loop n todo' (i + 1)
  end.

(** [writer_thread]; the [NULL] it returns is the unit. *)
Definition writer_thread (targ : ThreadArg) : M unit :=
  writer_loop (id targ) (Z.to_nat (operations targ)) 0 ;;
  printf (msg_writer_finished (id targ)).

(** The calls of [lsm_add] that the loop of [writer_thread] makes, in order. *)
Fixpoint writer_calls (n : Z) (todo : nat) (i : Z) : list (Z * Z) :=
  match todo with
  | O => []
  | S todo' =>
      (writer_key n i, writer_value (writer_key n i)) ::
      writer_calls n todo' (i + 1)
  end.

(** [if (lsm_get(&lsm, key, &value)) printf(got) else printf(not found)];
    [val] is what the local [value] holds before, the result what it holds
    after. *)
Definition reader_probe (n k val : Z) : M Z :=
  r <- lsm_get k val ;;
  (if fst r =? 0 then printf (msg_not_found n k)
   else printf (msg_got n k (snd r))) ;;
  ret (snd r).

(** The loop of [reader_thread].  The local [value] is declared without an
    initialiser in the body: [junk i] is what it holds when iteration [i]
    begins. *)
Fixpoint reader_loop (n : Z) (junk : Z -> Z) (todo : nat) (i : Z) : M unit :=
  match todo with
  | O => ret tt
  | S todo' =>
      let key1 := wrap_int (100 + i) in
      let key2 := wrap_int (200 + i) in
      val <- reader_probe n key1 (junk i) ;;
      reader_probe n key2 val ;;
      usleep 150000 ;;
      reader_loop n junk todo' (i + 1)
  end.

(** [reader_thread]. *)
Definition reader_thread (targ : ThreadArg) (junk : Z -> Z) : M unit :=
  reader_loop (id targ) junk (Z.to_nat (operations targ)) 0 ;;
  printf (msg_reader_finished (id targ)).

(** The loop at the end of [main], after the joins:
    [if (lsm.memtable[i].in_use) printf("  key %d -> value %d\n", ...)]. *)
Fixpoint report_loop (todo : nat) (i : Z) : M unit :=
  match todo with
  | O => ret tt
  | S todo' =>
      e <- load i ;;
      (if in_use e =? 0 then ret tt
       else printf (msg_entry (key e) (value e))) ;;
      report_loop todo' (i + 1)
  end.

(** The report of [main]: the header with the count, then the loop. *)
Definition main_report : M unit :=
  t <- get_tree ;;
  printf (msg_final (memtable_count t)) ;;
  report_loop (Z.to_nat (memtable_count t)) 0.

(** The lines a call wrote on the standard output stream. *)
Fixpoint stdout_lines (log : list Event) : list string :=
  match log with
  | [] => []
  | Stdout s :: log' => s :: stdout_lines log'
  | _ :: log' => stdout_lines log'
  end.

(** The tree after [lsm_add] has overwritten slot [i], and after it has
    filled the slot at the count. *)
Definition updated_tree (v : Z) (t : LSMTree) (i : nat) (e : Entry) : LSMTree :=
  with_memtable (<[i := with_value v e]> (memtable t)) t.

Definition appended_tree (k v : Z) (t : LSMTree) : LSMTree :=
  {| memtable := <[Z.to_nat (memtable_count t) := mkEntry k v 1]> (memtable t);
     memtable_max := memtable_max t;
     memtable_count := memtable_count t + 1 |}.

(** The line [reader_thread] prints for key [k] on table [t]. *)
Definition probe_line (n k : Z) (t : LSMTree) : string :=
  match lsm_get k 0 t with
  | Returns r _ _ =>
      if fst r =? 0 then msg_not_found n k else msg_got n k (snd r)
  | _ => EmptyString
  end.

(** The events of the loop of [reader_thread] on table [t]. *)
Fixpoint reader_log (n : Z) (t : LSMTree) (todo : nat) (i : Z) : list Event :=
  match todo with
  | O => []
  | S todo' =>
      log_get ++ [Stdout (probe_line n (wrap_int (100 + i)) t)] ++
      log_get ++ [Stdout (probe_line n (wrap_int (200 + i)) t)] ++
      reader_log n t todo' (i + 1)
  end.

(** The lines the loop of the report prints for the slots [l]: one for
    each slot in use. *)
Definition report_lines (l : list Entry) : list string :=
  (fun e => msg_entry (key e) (value e)) <$> filter (fun e => in_use e <> 0) l.

(** The value of the last pair of [ops] that has key [k], if any. *)
Fixpoint last_write (k : Z) (ops : list (Z * Z)) : option Z :=
  match ops with
  | [] => None
  | (k', v') :: rest =>
      match last_write k rest with
      | Some v => Some v
      | None => if k' =? k then Some v' else None
      end
  end.

(** A table of capacity 4 holding key 1. *)
Definition tree_four : LSMTree :=
  {| memtable := [mkEntry 1 10 1; mkEntry 0 0 0; mkEntry 0 0 0; mkEntry 0 0 0];
     memtable_max := 4; memtable_count := 1 |}.

(** A table of capacity 8, just initialised. *)
Definition block8 : list Entry := replicate 8 (mkEntry 6 6 6).
Definition tree_eight : LSMTree :=
  {| memtable := replicate 8 (mkEntry 6 6 0);
     memtable_max := 8; memtable_count := 0 |}.

(** ** Memory accesses and the scans *)

Lemma load_nat (t : LSMTree) (n : nat) :
  load (Z.of_nat n) t =
  match memtable t !! n with
  | Some e => Returns e t []
  | None => Undefined
  end.
Proof.
  unfold load. destruct (Z.ltb_spec (Z.of_nat n) 0) as [H|_]; [lia|].
  by rewrite Nat2Z.id.
Qed.

Lemma store_nat (upd : Entry -> Entry) (t : LSMTree) (n : nat) :
  store upd (Z.of_nat n) t =
  match memtable t !! n with
  | Some e => Returns tt (with_memtable (<[n := upd e]> (memtable t)) t) []
  | None => Undefined
  end.
Proof.
  unfold store, bind. rewrite load_nat.
  destruct (memtable t !! n); [|done]. simpl. by rewrite Nat2Z.id.
Qed.

Lemma succ_of_nat (n : nat) : Z.of_nat n + 1 = Z.of_nat (S n).
Proof. lia. Qed.

Lemma add_loop_miss (k v : Z) (t : LSMTree) (todo n : nat) :
  (n + todo <= length (memtable t))%nat ->
  (forall j e, (n <= j < n + todo)%nat -> memtable t !! j = Some e ->
     matches k e = false) ->
  add_loop k v todo (Z.of_nat n) t = Returns 0 t [].
Proof.
  revert n. induction todo as [|todo IH]; intros n Hlen Hno; [done|].
  simpl. unfold bind at 1. rewrite load_nat.
  destruct (lookup_lt_is_Some_2 (memtable t) n) as [e He]; [lia|].
  rewrite He, (Hno n e), succ_of_nat, IH; [done|lia| |lia|done].
  intros j e' Hj. apply Hno. lia.
Qed.

Lemma add_loop_hit (k v : Z) (t : LSMTree) (todo n i : nat) (e : Entry) :
  (n <= i < n + todo)%nat ->
  memtable t !! i = Some e ->
  matches k e = true ->
  (forall j e', (n <= j < i)%nat -> memtable t !! j = Some e' ->
     matches k e' = false) ->
  add_loop k v todo (Z.of_nat n) t =
  Returns 1 (with_memtable (<[i := with_value v e]> (memtable t)) t) [].
Proof.
  revert n. induction todo as [|todo IH]; intros n Hi He Hm Hno; [lia|].
  simpl. unfold bind at 1. rewrite load_nat.
  destruct (decide (n = i)) as [->|Hne].
  - rewrite He, Hm. unfold bind. by rewrite store_nat, He.
  - destruct (lookup_lt_is_Some_2 (memtable t) n) as [e' He'].
    { apply lookup_lt_Some in He. lia. }
    rewrite He', (Hno n e'), succ_of_nat, IH; [done|lia|done|done| |lia|done].
    intros j e'' Hj. apply Hno. lia.
Qed.

Lemma get_loop_miss (k out : Z) (t : LSMTree) (todo n : nat) :
  (n + todo <= length (memtable t))%nat ->
  (forall j e, (n <= j < n + todo)%nat -> memtable t !! j = Some e ->
     matches k e = false) ->
  get_loop k out todo (Z.of_nat n) t = Returns (0, out) t [].
Proof.
  revert n. induction todo as [|todo IH]; intros n Hlen Hno; [done|].
  simpl. unfold bind at 1. rewrite load_nat.
  destruct (lookup_lt_is_Some_2 (memtable t) n) as [e He]; [lia|].
  rewrite He, (Hno n e), succ_of_nat, IH; [done|lia| |lia|done].
  intros j e' Hj. apply Hno. lia.
Qed.

Lemma get_loop_hit (k out : Z) (t : LSMTree) (todo n i : nat) (e : Entry) :
  (n <= i < n + todo)%nat ->
  memtable t !! i = Some e ->
  matches k e = true ->
  (forall j e', (n <= j < i)%nat -> memtable t !! j = Some e' ->
     matches k e' = false) ->
  get_loop k out todo (Z.of_nat n) t = Returns (1, value e) t [].
Proof.
  revert n. induction todo as [|todo IH]; intros n Hi He Hm Hno; [lia|].
  simpl. unfold bind at 1. rewrite load_nat.
  destruct (decide (n = i)) as [->|Hne].
  - by rewrite He, Hm.
  - destruct (lookup_lt_is_Some_2 (memtable t) n) as [e' He'].
    { apply lookup_lt_Some in He. lia. }
    rewrite He', (Hno n e'), succ_of_nat, IH; [done|lia|done|done| |lia|done].
    intros j e'' Hj. apply Hno. lia.
Qed.

Lemma wrap_int_id (z : Z) : int_range z -> wrap_int z = z.
Proof.
  unfold int_range, INT_MIN, INT_MAX, wrap_int. intros H.
  rewrite Z.mod_small; lia.
Qed.

(** A scan of the first [n] slots either has a first match or has none. *)
Lemma scan_cases (k : Z) (l : list Entry) (n : nat) :
  (exists i e, (i < n)%nat /\ l !! i = Some e /\ matches k e = true /\
     forall j e', (j < i)%nat -> l !! j = Some e' -> matches k e' = false) \/
  (forall i e, (i < n)%nat -> l !! i = Some e -> matches k e = false).
Proof.
  induction n as [|n [IH|IH]].
  - right. intros i e Hi. lia.
  - left. destruct IH as (i & e & Hi & H). exists i, e. split; [lia|done].
  - destruct (l !! n) as [e|] eqn:He.
    + destruct (matches k e) eqn:Hm.
      * left. exists n, e. repeat split; try done. lia.
      * right. intros i e' Hi He'.
        destruct (decide (i = n)) as [->|Hne]; [congruence|].
        apply (IH i); [lia|done].
    + right. intros i e' Hi He'.
      destruct (decide (i = n)) as [->|Hne]; [congruence|].
      apply (IH i); [lia|done].
Qed.

Lemma present_or_absent (k : Z) (t : LSMTree) :
  (exists i e, first_match k t i e) \/ absent k t.
Proof.
  destruct (scan_cases k (memtable t) (Z.to_nat (memtable_count t)))
    as [(i & e & Hi & He & Hm & Hno)|Hno].
  - left. exists i, e. repeat split; try done. lia.
  - right. intros i e Hi. apply Hno. lia.
Qed.

Lemma present_first_match (k : Z) (t : LSMTree) :
  present k t -> exists i e, first_match k t i e.
Proof.
  intros (j & ej & Hj & Hej & Hm).
  destruct (present_or_absent k t) as [H|H]; [done|].
  rewrite (H j ej) in Hm; done.
Qed.

Lemma first_match_unique (k : Z) (t : LSMTree) (i j : nat) (ei ej : Entry) :
  first_match k t i ei -> first_match k t j ej -> i = j /\ ei = ej.
Proof.
  intros [(Hi & Hei & Hmi) Hfi] [(Hj & Hej & Hmj) Hfj].
  assert (i = j) as ->.
  { destruct (Nat.lt_trichotomy i j) as [Hlt|[->|Hlt]]; [|done|].
    - rewrite (Hfj i ei) in Hmi; done.
    - rewrite (Hfi j ej) in Hmj; done. }
  split; [done|congruence].
Qed.

Lemma absent_not_present (k : Z) (t : LSMTree) :
  absent k t -> present k t -> False.
Proof.
  intros Ha (i & e & Hi & He & Hm). rewrite (Ha i e) in Hm; done.
Qed.

Lemma allocated_in_bounds (t : LSMTree) :
  allocated t -> memtable_count t <= memtable_max t -> in_bounds t.
Proof. intros [_ Hlen] Hc. unfold in_bounds. lia. Qed.

(** ** The three ways through [lsm_add] *)

Lemma lsm_add_update (k v : Z) (t : LSMTree) (i : nat) (e : Entry) :
  first_match k t i e ->
  lsm_add k v t =
  Returns tt (with_memtable (<[i := with_value v e]> (memtable t)) t)
    (log_added k v).
Proof.
  intros [(Hi & He & Hm) Hno].
  unfold lsm_add, bind, pthread_rwlock_wrlock, emit, get_tree.
  change 0 with (Z.of_nat 0) at 1.
  rewrite (add_loop_hit k v t _ 0 i e); [done|lia|done|done|].
  intros j e' Hj. apply Hno. lia.
Qed.

Lemma lsm_add_append (k v : Z) (t : LSMTree) :
  allocated t ->
  0 <= memtable_count t < memtable_max t ->
  absent k t ->
  lsm_add k v t =
  Returns tt
    {| memtable := <[Z.to_nat (memtable_count t) := mkEntry k v 1]> (memtable t);
       memtable_max := memtable_max t;
       memtable_count := memtable_count t + 1 |}
    (log_added k v).
Proof.
  intros [Hmax Hlen] Hc Ha.
  destruct t as [mem mx cnt]; simpl in *.
  assert (exists c, cnt = Z.of_nat c) as [c ->] by (exists (Z.to_nat cnt); lia).
  rewrite Nat2Z.id.
  unfold lsm_add, bind, pthread_rwlock_wrlock, emit, get_tree.
  change 0 with (Z.of_nat 0) at 1.
  rewrite add_loop_miss; simpl; [|lia|intros j e Hj; apply Ha; simpl; lia].
  destruct (Z.ltb_spec (Z.of_nat c) mx); [|lia].
  destruct (lookup_lt_is_Some_2 mem c) as [e He]; [lia|].
  apply lookup_lt_Some in He as Hlt.
  rewrite store_nat. simpl. rewrite He. simpl.
  rewrite store_nat. simpl. rewrite list_lookup_insert_eq by done. simpl.
  rewrite store_nat. simpl.
  rewrite list_lookup_insert_eq by (by rewrite length_insert).
  unfold with_memtable_count, with_memtable. simpl.
  rewrite !list_insert_insert_eq, wrap_int_id; [done|].
  unfold int_range, INT_MIN, INT_MAX in *. lia.
Qed.

Lemma lsm_add_reject (k v : Z) (t : LSMTree) :
  in_bounds t ->
  rejected k t ->
  lsm_add k v t = Returns tt t (log_full k v).
Proof.
  intros Hb [Ha Hfull].
  unfold lsm_add, bind, pthread_rwlock_wrlock, emit, get_tree.
  change 0 with (Z.of_nat 0) at 1.
  rewrite add_loop_miss.
  - simpl. destruct (Z.ltb_spec (memtable_count t) (memtable_max t)); [lia|done].
  - unfold in_bounds in Hb. lia.
  - intros j e Hj. apply Ha. lia.
Qed.

(** ** The two ways through [lsm_get] *)

Lemma lsm_get_hit (k out : Z) (t : LSMTree) (i : nat) (e : Entry) :
  first_match k t i e ->
  lsm_get k out t = Returns (1, value e) t log_get.
Proof.
  intros [(Hi & He & Hm) Hno].
  unfold lsm_get, bind, pthread_rwlock_rdlock, emit, get_tree.
  change 0 with (Z.of_nat 0) at 1.
  rewrite (get_loop_hit k out t _ 0 i e); [done|lia|done|done|].
  intros j e' Hj. apply Hno. lia.
Qed.

Lemma lsm_get_miss (k out : Z) (t : LSMTree) :
  in_bounds t ->
  absent k t ->
  lsm_get k out t = Returns (0, out) t log_get.
Proof.
  intros Hb Ha.
  unfold lsm_get, bind, pthread_rwlock_rdlock, emit, get_tree.
  change 0 with (Z.of_nat 0) at 1.
  rewrite get_loop_miss; [done| |].
  - unfold in_bounds in Hb. lia.
  - intros j e Hj. apply Ha. lia.
Qed.

(** Each call takes the lock once, first, in the mode of its operation, and
    gives it back once, last. *)
Lemma lsm_add_one_critical_section (k v : Z) (t : LSMTree) :
  allocated t ->
  0 <= memtable_count t <= memtable_max t ->
  exists t' mid,
    lsm_add k v t = Returns tt t' (Wrlock :: mid ++ [Unlock]) /\
    forallb (fun e => negb (lock_call e)) mid = true.
Proof.
  intros Hal Hc.
  destruct (present_or_absent k t) as [(i & e & Hfm)|Ha].
  - eexists _, [Stdout (msg_added k v)]. split; [|done].
    by apply (lsm_add_update k v t i e).
  - destruct (Z.lt_ge_cases (memtable_count t) (memtable_max t)) as [Hlt|Hge].
    + eexists _, [Stdout (msg_added k v)]. split; [|done].
      apply lsm_add_append; try done. lia.
    + exists t, [Stderr (msg_full k); Stdout (msg_added k v)]. split; [|done].
      apply lsm_add_reject; [|done]. apply allocated_in_bounds; [done|lia].
Qed.

Lemma lsm_get_one_critical_section (k out : Z) (t : LSMTree) :
  in_bounds t ->
  exists r, lsm_get k out t = Returns r t [Rdlock; Unlock].
Proof.
  intros Hb. destruct (present_or_absent k t) as [(i & e & Hfm)|Ha].
  - exists (1, value e). by apply (lsm_get_hit k out t i e).
  - exists (0, out). by apply lsm_get_miss.
Qed.

(** [malloc] returning [NULL] ends the process. *)
Lemma lsm_init_null (max_entries : Z) (t0 : LSMTree) :
  lsm_init None max_entries t0 = Exits EXIT_FAILURE [Stderr msg_alloc_failed].
Proof. reflexivity. Qed.

(** ** The invariant *)

Lemma init_loop_spec (t : LSMTree) (todo n : nat) :
  (n + todo <= length (memtable t))%nat ->
  exists mem',
    init_loop todo (Z.of_nat n) t = Returns tt (with_memtable mem' t) [] /\
    length mem' = length (memtable t) /\
    forall j e', mem' !! j = Some e' ->
      exists e, memtable t !! j = Some e /\
        e' = if decide (n <= j < n + todo)%nat then with_in_use 0 e else e.
Proof.
  revert t n. induction todo as [|todo IH]; intros t n Hlen.
  - exists (memtable t). destruct t as [mem mx cnt]. simpl.
    repeat split; try done. intros j e' He'. exists e'. split; [done|].
    case_decide; [lia|done].
  - destruct (lookup_lt_is_Some_2 (memtable t) n) as [e He]; [lia|].
    simpl. unfold bind at 1. rewrite store_nat, He, succ_of_nat.
    destruct (IH (with_memtable (<[n := with_in_use 0 e]> (memtable t)) t) (S n))
      as (mem' & Hrun & Hlen' & Hmem').
    { simpl. rewrite length_insert. lia. }
    exists mem'. rewrite Hrun. simpl in *.
    rewrite length_insert in Hlen'. repeat split; try done.
    intros j e' He'. destruct (Hmem' j e' He') as (e1 & He1 & ->).
    apply list_lookup_insert_Some in He1 as [(<- & <- & Hn)|(Hne & He1)].
    + exists e. split; [done|]. repeat case_decide; try lia; done.
    + exists e1. split; [done|]. repeat case_decide; try lia; done.
Qed.

Lemma lsm_init_ok (t0 : LSMTree) (block : list Entry) (max_entries : Z) :
  0 <= max_entries <= INT_MAX ->
  Z.of_nat (length block) = max_entries ->
  exists mem',
    lsm_init (Some block) max_entries t0 =
      Returns tt {| memtable := mem'; memtable_max := max_entries;
                    memtable_count := 0 |} [RwlockInit] /\
    length mem' = length block /\
    forall j e', mem' !! j = Some e' ->
      exists e, block !! j = Some e /\ e' = with_in_use 0 e.
Proof.
  intros Hmax Hlen.
  destruct (init_loop_spec
    {| memtable := block; memtable_max := max_entries; memtable_count := 0 |}
    (Z.to_nat max_entries) 0) as (mem' & Hrun & Hlen' & Hmem'); [simpl; lia|].
  exists mem'. change (Z.of_nat 0) with 0 in Hrun.
  unfold lsm_init, bind. simpl in *.
  unfold with_memtable, with_memtable_count, with_memtable_max. simpl.
  rewrite Hrun. simpl. repeat split; try done.
  intros j e' He'. destruct (Hmem' j e' He') as (e & He & ->).
  exists e. split; [done|]. apply lookup_lt_Some in He.
  case_decide; [done|lia].
Qed.

Lemma lsm_init_inv (t0 : LSMTree) (block : list Entry) (max_entries : Z) :
  0 <= max_entries <= INT_MAX ->
  Z.of_nat (length block) = max_entries ->
  exists t,
    lsm_init (Some block) max_entries t0 = Returns tt t [RwlockInit] /\
    memtable_count t = 0 /\ memtable_max t = max_entries /\
    allocated t /\ table_inv t.
Proof.
  intros Hmax Hlen.
  destruct (lsm_init_ok t0 block max_entries Hmax Hlen)
    as (mem' & Hrun & Hlen' & Hmem').
  eexists. split; [exact Hrun|]. simpl. split; [done|]. split; [done|].
  split; [split; simpl; lia|]. split; simpl.
  - lia.
  - intros i e He Hi. lia.
  - intros i e He _. by destruct (Hmem' i e He) as (e0 & _ & ->).
  - intros i j ei ej Hi _ Hu. by destruct (Hmem' i ei Hi) as (e0 & _ & ->).
Qed.

Lemma update_preserves (v : Z) (t : LSMTree) (i : nat) (e : Entry) :
  memtable t !! i = Some e ->
  allocated t -> table_inv t ->
  allocated (with_memtable (<[i := with_value v e]> (memtable t)) t) /\
  table_inv (with_memtable (<[i := with_value v e]> (memtable t)) t).
Proof.
  intros He [Hmax Hlen] [Hc Hu Hf Hd].
  assert (Hold : forall j e', <[i := with_value v e]> (memtable t) !! j = Some e' ->
            exists e0, memtable t !! j = Some e0 /\
              in_use e' = in_use e0 /\ key e' = key e0).
  { intros j e' He'.
    apply list_lookup_insert_Some in He' as [(<- & <- & _)|(_ & He')]; eauto. }
  split; [split; simpl; [done|by rewrite length_insert]|].
  split; simpl; [done| | |].
  - intros j e' He' Hj. destruct (Hold j e' He') as (e0 & He0 & -> & _). eauto.
  - intros j e' He' Hj. destruct (Hold j e' He') as (e0 & He0 & -> & _). eauto.
  - intros j1 j2 e1 e2 He1 He2.
    destruct (Hold j1 e1 He1) as (a1 & Ha1 & -> & ->).
    destruct (Hold j2 e2 He2) as (a2 & Ha2 & -> & ->). eauto.
Qed.

Lemma matches_true (k : Z) (e : Entry) :
  matches k e = true <-> in_use e <> 0 /\ key e = k.
Proof.
  unfold matches. rewrite andb_true_iff, negb_true_iff, Z.eqb_neq, Z.eqb_eq.
  done.
Qed.

Lemma append_preserves (k v : Z) (t : LSMTree) :
  memtable_count t < memtable_max t ->
  absent k t ->
  allocated t -> table_inv t ->
  let t' := {| memtable := <[Z.to_nat (memtable_count t) := mkEntry k v 1]>
                             (memtable t);
               memtable_max := memtable_max t;
               memtable_count := memtable_count t + 1 |} in
  allocated t' /\ table_inv t'.
Proof.
  intros Hlt Ha [Hmax Hlen] [Hc Hu Hf Hd]. simpl.
  assert (Hused : forall j e, memtable t !! j = Some e -> in_use e <> 0 ->
            Z.of_nat j < memtable_count t /\ key e <> k).
  { intros j e He Hne.
    assert (Z.of_nat j < memtable_count t) as Hj.
    { destruct (Z.lt_ge_cases (Z.of_nat j) (memtable_count t)); [done|].
      by destruct Hne; apply (Hf j). }
    split; [done|]. intros Hk.
    assert (matches k e = true) as Hm by (by apply matches_true).
    rewrite (Ha j e) in Hm; done. }
  split; [split; simpl; [done|by rewrite length_insert]|].
  split; simpl.
  - lia.
  - intros j e He Hj.
    apply list_lookup_insert_Some in He as [(_ & <- & _)|(Hne & He)]; [done|].
    apply (Hu j); [done|lia].
  - intros j e He Hj.
    apply list_lookup_insert_Some in He as [(Heq & _)|(Hne & He)]; [lia|].
    apply (Hf j); [done|lia].
  - intros j1 j2 e1 e2 He1 He2 Hu1 Hu2 Hk.
    apply list_lookup_insert_Some in He1 as [(<- & <- & _)|(Hne1 & He1)];
    apply list_lookup_insert_Some in He2 as [(<- & <- & _)|(Hne2 & He2)];
      simpl in *; [done| | |eauto].
    + destruct (Hused j2 e2 He2 Hu2) as [_ Hk2]. congruence.
    + destruct (Hused j1 e1 He1 Hu1) as [_ Hk1]. congruence.
Qed.

(** [lsm_add] returns from every state of the invariant, into the invariant. *)
Lemma lsm_add_preserves (k v : Z) (t : LSMTree) :
  allocated t -> table_inv t ->
  exists t' log, lsm_add k v t = Returns tt t' log /\
    allocated t' /\ table_inv t'.
Proof.
  intros Hal Hinv.
  destruct (present_or_absent k t) as [(i & e & Hfm)|Ha].
  - eexists _, _. split; [by apply lsm_add_update|].
    apply update_preserves; try done. by destruct Hfm as [(_ & He & _) _].
  - destruct (Z.lt_ge_cases (memtable_count t) (memtable_max t)) as [Hlt|Hge].
    + eexists _, _. split.
      * apply lsm_add_append; try done. destruct Hinv. lia.
      * by apply append_preserves.
    + exists t, (log_full k v). split; [|done].
      apply lsm_add_reject; [|done].
      apply allocated_in_bounds; [done|]. by destruct Hinv as [[_ ?] _ _ _].
Qed.

Lemma reachable_inv (t : LSMTree) :
  reachable t -> allocated t /\ table_inv t.
Proof.
  induction 1 as [t0 block n t log Hn Hlen Hrun|t k v t' log _ [Hal Hinv] Hrun].
  - destruct (lsm_init_inv t0 block n Hn Hlen) as (t1 & Hrun1 & _ & _ & H).
    rewrite Hrun in Hrun1. by inversion Hrun1; subst.
  - destruct (lsm_add_preserves k v t Hal Hinv) as (t1 & log1 & Hrun1 & H).
    rewrite Hrun in Hrun1. by inversion Hrun1; subst.
Qed.

(** ** Sequencing, and reads after writes *)

Lemma bind_returns {A B} (m : M A) (f : A -> M B) (t t1 t2 : LSMTree)
    (a : A) (b : B) (l1 l2 : list Event) :
  m t = Returns a t1 l1 ->
  f a t1 = Returns b t2 l2 ->
  bind m f t = Returns b t2 (l1 ++ l2).
Proof. intros Hm Hf. unfold bind. by rewrite Hm, Hf. Qed.

(** After an [lsm_add] that is not refused, the first match of the key
    carries the value written. *)
Lemma lsm_add_then_first (k v : Z) (t : LSMTree) :
  allocated t -> table_inv t ->
  present k t \/ memtable_count t < memtable_max t ->
  exists t' log i e,
    lsm_add k v t = Returns tt t' log /\
    allocated t' /\ table_inv t' /\
    first_match k t' i e /\ value e = v.
Proof.
  intros Hal Hinv Hroom.
  destruct (present_or_absent k t) as [(i & e & Hfm)|Ha].
  - destruct Hfm as [(Hi & He & Hm) Hno].
    exists (with_memtable (<[i := with_value v e]> (memtable t)) t),
      (log_added k v), i, (with_value v e).
    split; [by apply lsm_add_update|].
    destruct (update_preserves v t i e He Hal Hinv) as [Hal' Hinv'].
    unfold first_match, match_at; split_and!; simpl; try done.
    + apply list_lookup_insert_eq. by apply lookup_lt_Some in He.
    + intros j e' Hj He'. rewrite list_lookup_insert_ne in He' by lia. eauto.
  - destruct Hroom as [Hp|Hlt]; [by destruct (absent_not_present k t)|].
    destruct Hinv as [Hc Hu Hf Hd]. destruct Hal as [Hmax Hlen].
    eexists _, (log_added k v), (Z.to_nat (memtable_count t)), (mkEntry k v 1).
    split; [apply lsm_add_append; try done; lia|].
    destruct (append_preserves k v t) as [Hal' Hinv']; try done.
    unfold first_match, match_at; split_and!; simpl; try done.
    + lia.
    + apply list_lookup_insert_eq. lia.
    + unfold matches. simpl. by rewrite Z.eqb_refl.
    + intros j e' Hj He'. rewrite list_lookup_insert_ne in He' by lia.
      apply (Ha j); [lia|done].
Qed.

(** An [lsm_add] of another key leaves the first match of [k] where it is. *)
Lemma lsm_add_other_first (k k' v' : Z) (t : LSMTree) (i : nat) (e : Entry) :
  k' <> k ->
  allocated t -> table_inv t ->
  first_match k t i e ->
  exists t' log,
    lsm_add k' v' t = Returns tt t' log /\
    allocated t' /\ table_inv t' /\ first_match k t' i e.
Proof.
  intros Hne Hal Hinv [(Hi & He & Hm) Hno].
  destruct (present_or_absent k' t) as [(i' & e' & Hfm')|Ha].
  - destruct (Hfm') as [(Hi' & He' & Hm') _].
    apply matches_true in Hm as [Hu Hk]. apply matches_true in Hm' as [Hu' Hk'].
    assert (i' <> i) by (intros ->; congruence).
    eexists _, _. split; [by apply lsm_add_update|].
    destruct (update_preserves v' t i' e' He' Hal Hinv) as [Hal' Hinv'].
    unfold first_match, match_at; split_and!; simpl; try done.
    + by rewrite list_lookup_insert_ne.
    + by apply matches_true.
    + intros j e'' Hj He''.
      apply list_lookup_insert_Some in He'' as [(_ & <- & _)|(_ & He'')]; [|eauto].
      unfold matches. simpl. destruct (Z.eqb_spec (key e') k); [congruence|].
      by rewrite andb_false_r.
  - destruct (Z.lt_ge_cases (memtable_count t) (memtable_max t)) as [Hlt|Hge].
    + destruct (Hinv) as [Hc _ _ _].
      eexists _, _. split; [apply lsm_add_append; try done; lia|].
      destruct (append_preserves k' v' t) as [Hal' Hinv']; try done.
      unfold first_match, match_at; split_and!; simpl; try done.
      * lia.
      * rewrite list_lookup_insert_ne; [done|lia].
      * intros j e'' Hj He''. rewrite list_lookup_insert_ne in He'' by lia. eauto.
    + exists t, (log_full k' v'). split_and!; try done.
      apply lsm_add_reject; [|done].
      apply allocated_in_bounds; [done|]. by destruct Hinv as [[_ ?] _ _ _].
Qed.

Lemma lsm_add_all_other_first (k : Z) (ops : list (Z * Z)) (t : LSMTree)
    (i : nat) (e : Entry) :
  Forall (fun kv => fst kv <> k) ops ->
  allocated t -> table_inv t ->
  first_match k t i e ->
  exists t' log,
    lsm_add_all ops t = Returns tt t' log /\
    allocated t' /\ table_inv t' /\ first_match k t' i e.
Proof.
  intros Hops. revert t.
  induction Hops as [|[k' v'] ops Hk' _ IH]; intros t Hal Hinv Hfm.
  - by exists t, [].
  - destruct (lsm_add_other_first k k' v' t i e Hk' Hal Hinv Hfm)
      as (t1 & l1 & Hrun1 & Hal1 & Hinv1 & Hfm1).
    destruct (IH t1 Hal1 Hinv1 Hfm1) as (t2 & l2 & Hrun2 & H).
    exists t2, (l1 ++ l2). split; [|done].
    simpl. by apply (bind_returns _ _ t t1 t2 tt tt).
Qed.

Lemma absentb_absent (k : Z) (t : LSMTree) : absentb k t = true -> absent k t.
Proof.
  unfold absentb. rewrite forallb_forall. intros H i e Hi He.
  apply negb_true_iff, H, list_elem_of_In, list_elem_of_lookup.
  exists i. rewrite lookup_take_lt; [done|lia].
Qed.

Lemma reachable_tree_init2 : reachable tree_init2.
Proof. by apply (reach_init tree_zero block2 2 _ [RwlockInit]). Qed.

Lemma reachable_tree_one : reachable tree_one.
Proof.
  by apply (reach_add tree_init2 1 10 _ (log_added 1 10) reachable_tree_init2).
Qed.

Lemma reachable_tree_full : reachable tree_full.
Proof.
  by apply (reach_add tree_one 2 20 _ (log_added 2 20) reachable_tree_one).
Qed.

(** * The properties of the table *)

(** ** Refused writes *)

(** C1, as stated, fails: [lsm_add] is a [void] function, so on the full
    table the refused write of the new key 3 and the accepted write of the
    present key 1 hand their caller the same thing, and nothing computed
    from what is returned tells the two apart. *)
Lemma lsm_add_result_carries_no_signal :
  rejected 3 tree_full /\ ~ rejected 1 tree_full /\
  returned (lsm_add 3 30 tree_full) = Some tt /\
  returned (lsm_add 1 11 tree_full) = Some tt /\
  ~ exists signal : unit -> bool,
      (signal <$> returned (lsm_add 3 30 tree_full)) = Some true /\
      (signal <$> returned (lsm_add 1 11 tree_full)) = Some false.
Proof.
  split_and!; try done.
  - split; [by apply absentb_absent|simpl; lia].
  - intros [Ha _]. by specialize (Ha 0%nat (mkEntry 1 10 1) eq_refl eq_refl).
  - intros (signal & H3 & H1). simpl in *. congruence.
Qed.

(** C1 (amended): a write refused because the table is full and the key is
    new is not fatal and not silent.  The call returns to its caller, with
    no result value, and has written the line naming the key on the standard
    error stream; a call that is not refused writes nothing there. *)
Theorem lsm_add_rejection_reported (k v : Z) (t : LSMTree) :
  allocated t ->
  0 <= memtable_count t <= memtable_max t ->
  exists t' log,
    lsm_add k v t = Returns tt t' log /\
    (rejected k t -> stderr_lines log = [msg_full k]) /\
    (~ rejected k t -> stderr_lines log = []).
Proof.
  intros Hal Hc.
  destruct (present_or_absent k t) as [(i & e & Hfm)|Ha].
  - eexists _, _. split; [by apply lsm_add_update|]. split; [|done].
    intros [Ha _]. destruct (absent_not_present k t Ha).
    exists i, e. by destruct Hfm.
  - destruct (Z.lt_ge_cases (memtable_count t) (memtable_max t)) as [Hlt|Hge].
    + eexists _, _. split; [apply lsm_add_append; try done; lia|].
      split; [|done]. intros [_ Hfull]. lia.
    + exists t, (log_full k v). split.
      * apply lsm_add_reject; [|done]. apply allocated_in_bounds; [done|lia].
      * split; [done|]. intros Hrej. by destruct Hrej.
Qed.

Lemma lsm_add_rejection_reported_witness :
  allocated tree_full /\
  0 <= memtable_count tree_full <= memtable_max tree_full /\
  exists t' log,
    lsm_add 3 30 tree_full = Returns tt t' log /\
    (rejected 3 tree_full -> stderr_lines log = [msg_full 3]) /\
    (~ rejected 3 tree_full -> stderr_lines log = []).
Proof.
  assert (Hal : allocated tree_full) by (by split; [split|]).
  assert (Hc : 0 <= memtable_count tree_full <= memtable_max tree_full)
    by (by split).
  split; [exact Hal|]. split; [exact Hc|].
  exact (lsm_add_rejection_reported 3 30 tree_full Hal Hc).
Defined.

(** C2: on a full table, [lsm_add] of a key that is not present returns the
    table as it was: block, capacity and count. *)
Theorem lsm_add_full_unchanged (k v : Z) (t : LSMTree) :
  in_bounds t ->
  memtable_count t = memtable_max t ->
  absent k t ->
  exists log, lsm_add k v t = Returns tt t log.
Proof.
  intros Hb Hfull Ha. exists (log_full k v).
  apply lsm_add_reject; [done|]. split; [done|lia].
Qed.

Lemma lsm_add_full_unchanged_witness :
  in_bounds tree_full /\
  memtable_count tree_full = memtable_max tree_full /\
  absent 3 tree_full /\
  exists log, lsm_add 3 30 tree_full = Returns tt tree_full log.
Proof.
  assert (Hb : in_bounds tree_full) by (by unfold in_bounds).
  assert (Ha : absent 3 tree_full) by (by apply absentb_absent).
  split; [exact Hb|]. split; [reflexivity|]. split; [exact Ha|].
  exact (lsm_add_full_unchanged 3 30 tree_full Hb eq_refl Ha).
Defined.

(** ** The invariant *)

(** C3: the invariant (count between 0 and the capacity, slots below count
    in use, slots from count on not in use, keys of used slots pairwise
    distinct) holds of the table [lsm_init] returns, every [lsm_add] from a
    table of the invariant returns a table of the invariant, and so it holds
    of every table reached from [lsm_init] by [lsm_add] calls. *)
Theorem table_invariant :
  (forall t0 block max_entries,
     0 <= max_entries <= INT_MAX ->
     Z.of_nat (length block) = max_entries ->
     exists t log, lsm_init (Some block) max_entries t0 = Returns tt t log /\
       allocated t /\ table_inv t) /\
  (forall k v t, allocated t -> table_inv t ->
     exists t' log, lsm_add k v t = Returns tt t' log /\
       allocated t' /\ table_inv t') /\
  (forall t, reachable t -> table_inv t).
Proof.
  split_and!.
  - intros t0 block n Hn Hlen.
    destruct (lsm_init_inv t0 block n Hn Hlen) as (t & Hrun & _ & _ & H).
    by exists t, [RwlockInit].
  - apply lsm_add_preserves.
  - intros t Hr. by apply reachable_inv.
Qed.

Lemma table_invariant_witness :
  reachable tree_full /\ table_inv tree_full.
Proof.
  split; [exact reachable_tree_full|].
  exact (proj2 (proj2 table_invariant) tree_full reachable_tree_full).
Defined.

(** ** Writes that are stored *)

(** C4: when some used slot among the first count has the key, [lsm_add]
    writes the value into the first such slot and changes nothing else: the
    count, the capacity, the key and flag of that slot and every other slot
    are as before. *)
Theorem lsm_add_overwrites_first (k v : Z) (t : LSMTree) :
  present k t ->
  exists i e t' log,
    first_match k t i e /\
    lsm_add k v t = Returns tt t' log /\
    memtable_count t' = memtable_count t /\
    memtable_max t' = memtable_max t /\
    length (memtable t') = length (memtable t) /\
    memtable t' !! i = Some {| key := key e; value := v; in_use := in_use e |} /\
    forall j, j <> i -> memtable t' !! j = memtable t !! j.
Proof.
  intros Hp. destruct (present_first_match k t Hp) as (i & e & Hfm).
  exists i, e, (with_memtable (<[i := with_value v e]> (memtable t)) t),
    (log_added k v).
  destruct (Hfm) as [(_ & He & _) _]. split_and!; simpl; try done.
  - by apply lsm_add_update.
  - apply length_insert.
  - apply list_lookup_insert_eq. by apply lookup_lt_Some in He.
  - intros j Hj. by apply list_lookup_insert_ne.
Qed.

Lemma lsm_add_overwrites_first_witness :
  present 2 tree_full /\
  exists i e t' log,
    first_match 2 tree_full i e /\
    lsm_add 2 21 tree_full = Returns tt t' log /\
    memtable_count t' = memtable_count tree_full /\
    memtable_max t' = memtable_max tree_full /\
    length (memtable t') = length (memtable tree_full) /\
    memtable t' !! i = Some {| key := key e; value := 21; in_use := in_use e |} /\
    forall j, j <> i -> memtable t' !! j = memtable tree_full !! j.
Proof.
  assert (Hp : present 2 tree_full).
  { exists 1%nat, (mkEntry 2 20 1). by split_and!. }
  split; [exact Hp|].
  exact (lsm_add_overwrites_first 2 21 tree_full Hp).
Defined.

(** C5: when no used slot among the first count has the key and the count
    is below the capacity, [lsm_add] writes key, value and flag 1 into the
    slot at index count, adds one to the count, and leaves the capacity and
    every other slot as before. *)
Theorem lsm_add_appends_at_count (k v : Z) (t : LSMTree) :
  allocated t ->
  0 <= memtable_count t ->
  memtable_count t < memtable_max t ->
  absent k t ->
  exists t' log,
    lsm_add k v t = Returns tt t' log /\
    memtable_count t' = memtable_count t + 1 /\
    memtable_max t' = memtable_max t /\
    length (memtable t') = length (memtable t) /\
    memtable t' !! Z.to_nat (memtable_count t) =
      Some {| key := k; value := v; in_use := 1 |} /\
    forall j, j <> Z.to_nat (memtable_count t) ->
      memtable t' !! j = memtable t !! j.
Proof.
  intros Hal H0 Hlt Ha. eexists _, (log_added k v).
  split; [by apply lsm_add_append|].
  destruct Hal as [_ Hlen]. split_and!; simpl; try done.
  - apply length_insert.
  - apply list_lookup_insert_eq. lia.
  - intros j Hj. by apply list_lookup_insert_ne.
Qed.

Lemma lsm_add_appends_at_count_witness :
  allocated tree_one /\
  0 <= memtable_count tree_one /\
  memtable_count tree_one < memtable_max tree_one /\
  absent 2 tree_one /\
  exists t' log,
    lsm_add 2 20 tree_one = Returns tt t' log /\
    memtable_count t' = memtable_count tree_one + 1 /\
    memtable_max t' = memtable_max tree_one /\
    length (memtable t') = length (memtable tree_one) /\
    memtable t' !! Z.to_nat (memtable_count tree_one) =
      Some {| key := 2; value := 20; in_use := 1 |} /\
    forall j, j <> Z.to_nat (memtable_count tree_one) ->
      memtable t' !! j = memtable tree_one !! j.
Proof.
  assert (Hal : allocated tree_one) by (by split; [split|]).
  assert (H0 : 0 <= memtable_count tree_one) by done.
  assert (Hlt : memtable_count tree_one < memtable_max tree_one) by done.
  assert (Ha : absent 2 tree_one) by (by apply absentb_absent).
  split; [exact Hal|]. split; [exact H0|]. split; [exact Hlt|].
  split; [exact Ha|].
  exact (lsm_add_appends_at_count 2 20 tree_one Hal H0 Hlt Ha).
Defined.

(** ** Reads *)

(** C6: [lsm_get] returns from every table whose first count slots exist,
    never changes the table, and reports the value of the first used slot
    with the key in index-ascending order among the first count slots, or
    found = 0 when no such slot has the key. *)
Theorem lsm_get_first_match (k out : Z) (t : LSMTree) :
  in_bounds t ->
  exists r log,
    lsm_get k out t = Returns r t log /\
    ((exists i e, first_match k t i e /\ r = (1, value e)) \/
     (absent k t /\ fst r = 0)).
Proof.
  intros Hb. destruct (present_or_absent k t) as [(i & e & Hfm)|Ha].
  - exists (1, value e), log_get. split; [by apply (lsm_get_hit k out t i e)|].
    left. by exists i, e.
  - exists (0, out), log_get. split; [by apply lsm_get_miss|]. by right.
Qed.

Lemma lsm_get_first_match_witness :
  in_bounds tree_full /\
  exists r log,
    lsm_get 2 0 tree_full = Returns r tree_full log /\
    ((exists i e, first_match 2 tree_full i e /\ r = (1, value e)) \/
     (absent 2 tree_full /\ fst r = 0)).
Proof.
  assert (Hb : in_bounds tree_full) by (by unfold in_bounds).
  split; [exact Hb|].
  exact (lsm_get_first_match 2 0 tree_full Hb).
Defined.

(** C10: when no used slot among the first count has the key, [lsm_get]
    returns 0 and the caller's [*out_value] holds what it held before. *)
Theorem lsm_get_absent_keeps_out (k out : Z) (t : LSMTree) :
  in_bounds t ->
  absent k t ->
  exists log, lsm_get k out t = Returns (0, out) t log.
Proof. intros Hb Ha. exists log_get. by apply lsm_get_miss. Qed.

Lemma lsm_get_absent_keeps_out_witness :
  in_bounds tree_full /\ absent 3 tree_full /\
  exists log, lsm_get 3 (-77) tree_full = Returns (0, -77) tree_full log.
Proof.
  assert (Hb : in_bounds tree_full) by (by unfold in_bounds).
  assert (Ha : absent 3 tree_full) by (by apply absentb_absent).
  split; [exact Hb|]. split; [exact Ha|].
  exact (lsm_get_absent_keeps_out 3 (-77) tree_full Hb Ha).
Defined.

(** ** Reads after writes *)

(** C7, as stated, fails on a reachable table: the table of capacity 2
    holding keys 1 and 2 refuses the write of key 3, and the read of key 3
    that follows finds nothing. *)
Lemma read_after_refused_write_not_found :
  reachable tree_full /\
  (lsm_add 3 30 ;; lsm_get 3 0) tree_full =
    Returns (0, 0) tree_full (log_full 3 30 ++ log_get).
Proof. split; [exact reachable_tree_full|reflexivity]. Qed.

(** C7 (amended): on a reachable table where the key is present or the
    count is below the capacity, [lsm_add k v], then any [lsm_add] calls for
    other keys, then [lsm_get k] returns found = 1 with value [v]. *)
Theorem read_after_write (k v out : Z) (others : list (Z * Z)) (t : LSMTree) :
  reachable t ->
  present k t \/ memtable_count t < memtable_max t ->
  Forall (fun kv => fst kv <> k) others ->
  exists t' log,
    (lsm_add k v ;; lsm_add_all others ;; lsm_get k out) t =
      Returns (1, v) t' log.
Proof.
  intros Hr Hroom Hothers.
  destruct (reachable_inv t Hr) as [Hal Hinv].
  destruct (lsm_add_then_first k v t Hal Hinv Hroom)
    as (t1 & l1 & i & e & Hrun1 & Hal1 & Hinv1 & Hfm1 & <-).
  destruct (lsm_add_all_other_first k others t1 i e Hothers Hal1 Hinv1 Hfm1)
    as (t2 & l2 & Hrun2 & _ & _ & Hfm2).
  exists t2, (l1 ++ l2 ++ log_get).
  apply (bind_returns _ _ t t1 t2 tt _ l1 _ Hrun1).
  apply (bind_returns _ _ t1 t2 t2 tt _ l2 _ Hrun2).
  by apply (lsm_get_hit k out t2 i e).
Qed.

Lemma read_after_write_witness :
  reachable tree_one /\
  (present 5 tree_one \/ memtable_count tree_one < memtable_max tree_one) /\
  Forall (fun kv => fst kv <> 5) [(1, 11); (9, 90)] /\
  exists t' log,
    (lsm_add 5 50 ;; lsm_add_all [(1, 11); (9, 90)] ;; lsm_get 5 0) tree_one =
      Returns (1, 50) t' log.
Proof.
  assert (Hroom : present 5 tree_one \/
                  memtable_count tree_one < memtable_max tree_one)
    by (by right).
  assert (Hothers : Forall (fun kv : Z * Z => fst kv <> 5) [(1, 11); (9, 90)])
    by (by repeat constructor).
  split; [exact reachable_tree_one|]. split; [exact Hroom|].
  split; [exact Hothers|].
  exact (read_after_write 5 50 0 [(1, 11); (9, 90)] tree_one
           reachable_tree_one Hroom Hothers).
Defined.

(** ** The example run *)

(** C8: from [lsm_init] with capacity 2, whatever the tree and the fresh
    block held before, [lsm_add 1 10] gives count 1, [lsm_add 2 20] gives
    count 2, [lsm_add 3 30] is refused and leaves the table, count 2
    included, as it was, [lsm_get 1] finds 10 and [lsm_get 3] finds
    nothing. *)
Theorem example_scenario (t0 : LSMTree) (e1 e2 : Entry) (out : Z) :
  exists ti t1 t2 l0 l1 l2 l3 l4 l5,
    lsm_init (Some [e1; e2]) 2 t0 = Returns tt ti l0 /\
    lsm_add 1 10 ti = Returns tt t1 l1 /\ memtable_count t1 = 1 /\
    lsm_add 2 20 t1 = Returns tt t2 l2 /\ memtable_count t2 = 2 /\
    rejected 3 t2 /\
    lsm_add 3 30 t2 = Returns tt t2 l3 /\ stderr_lines l3 = [msg_full 3] /\
    lsm_get 1 out t2 = Returns (1, 10) t2 l4 /\
    lsm_get 3 out t2 = Returns (0, out) t2 l5.
Proof.
  exists {| memtable := [with_in_use 0 e1; with_in_use 0 e2];
            memtable_max := 2; memtable_count := 0 |},
    {| memtable := [mkEntry 1 10 1; with_in_use 0 e2];
       memtable_max := 2; memtable_count := 1 |},
    tree_full,
    [RwlockInit], (log_added 1 10), (log_added 2 20), (log_full 3 30),
    log_get, log_get.
  split_and!; try reflexivity.
  split; [by apply absentb_absent|simpl; lia].
Qed.

(** * Runs of calls *)

(** ** One call of [lsm_add], by cases *)

Lemma lsm_add_cases (k v : Z) (t : LSMTree) :
  allocated t -> table_inv t ->
  (exists i e, first_match k t i e /\
     lsm_add k v t = Returns tt (updated_tree v t i e) (log_added k v) /\
     allocated (updated_tree v t i e) /\ table_inv (updated_tree v t i e)) \/
  (absent k t /\ memtable_count t < memtable_max t /\
     lsm_add k v t = Returns tt (appended_tree k v t) (log_added k v) /\
     allocated (appended_tree k v t) /\ table_inv (appended_tree k v t)) \/
  (absent k t /\ memtable_max t <= memtable_count t /\
     lsm_add k v t = Returns tt t (log_full k v)).
Proof.
  intros Hal Hinv.
  destruct (present_or_absent k t) as [(i & e & Hfm)|Ha].
  - left. exists i, e. split; [done|]. split; [by apply lsm_add_update|].
    apply update_preserves; try done. by destruct Hfm as [(_ & He & _) _].
  - right.
    destruct (Z.lt_ge_cases (memtable_count t) (memtable_max t)) as [Hlt|Hge].
    + left. split_and!; try done.
      * apply lsm_add_append; try done. destruct Hinv. lia.
      * by apply append_preserves.
      * by apply append_preserves.
    + right. split_and!; try done.
      apply lsm_add_reject; [|done].
      apply allocated_in_bounds; [done|]. by destruct Hinv as [[_ ?] _ _ _].
Qed.

Lemma matches_with_value (k v : Z) (e : Entry) :
  matches k (with_value v e) = matches k e.
Proof. done. Qed.

(** The scan for [k] sees the same thing in a table whose slots below the
    count differ from those of [t] in their values only. *)
Lemma updated_lookup (v : Z) (t : LSMTree) (i j : nat) (e e' : Entry) :
  memtable t !! i = Some e ->
  memtable (updated_tree v t i e) !! j = Some e' ->
  exists e0, memtable t !! j = Some e0 /\
    key e' = key e0 /\ in_use e' = in_use e0 /\
    (j <> i -> e' = e0) /\ (j = i -> e' = with_value v e).
Proof.
  intros He He'. simpl in He'.
  apply list_lookup_insert_Some in He' as [(<- & <- & _)|(Hne & He')].
  - exists e. by split_and!.
  - exists e'. split_and!; try done; by intros ->.
Qed.

Lemma updated_absent (k v : Z) (t : LSMTree) (i : nat) (e : Entry) :
  memtable t !! i = Some e ->
  absent k t -> absent k (updated_tree v t i e).
Proof.
  intros He Ha j e' Hj He'.
  destruct (updated_lookup v t i j e e' He He') as (e0 & He0 & Hk & Hu & _).
  specialize (Ha j e0 Hj He0). unfold matches in *. by rewrite Hk, Hu.
Qed.

Lemma appended_absent (k k' v' : Z) (t : LSMTree) :
  k' <> k -> 0 <= memtable_count t ->
  absent k t -> absent k (appended_tree k' v' t).
Proof.
  intros Hne Hc Ha j e' Hj He'. simpl in *.
  apply list_lookup_insert_Some in He' as [(_ & <- & _)|(Hj' & He')].
  - unfold matches. simpl. destruct (Z.eqb_spec k' k); [done|].
    by rewrite ?andb_false_r.
  - apply (Ha j); [lia|done].
Qed.

(** A call for another key leaves an absent key absent. *)
Lemma lsm_add_other_absent (k k' v' : Z) (t : LSMTree) :
  k' <> k -> allocated t -> table_inv t -> absent k t ->
  exists t' log, lsm_add k' v' t = Returns tt t' log /\
    allocated t' /\ table_inv t' /\ absent k t' /\
    memtable_count t <= memtable_count t'.
Proof.
  intros Hne Hal Hinv Ha.
  destruct (lsm_add_cases k' v' t Hal Hinv)
    as [(i & e & Hfm & Hrun & Hal' & Hinv')
       |[(Ha' & Hlt & Hrun & Hal' & Hinv')|(Ha' & Hge & Hrun)]].
  - eexists _, _. split; [exact Hrun|]. split_and!; try done.
    apply updated_absent; [|done]. by destruct Hfm as [(_ & He & _) _].
  - eexists _, _. split; [exact Hrun|]. split_and!; try done.
    + apply appended_absent; try done. by destruct Hinv as [[? _] _ _ _].
    + simpl. lia.
  - eexists _, _. split; [exact Hrun|]. by split_and!.
Qed.

(** One call: capacity and block length stay, the count grows by at most
    one, slots below the old count keep key and flag, slots from the new
    count on are not touched. *)
Lemma lsm_add_step (k v : Z) (t : LSMTree) :
  allocated t -> table_inv t ->
  exists t' log, lsm_add k v t = Returns tt t' log /\
    allocated t' /\ table_inv t' /\
    memtable_max t' = memtable_max t /\
    length (memtable t') = length (memtable t) /\
    memtable_count t <= memtable_count t' <= memtable_count t + 1 /\
    (forall i e, Z.of_nat i < memtable_count t -> memtable t !! i = Some e ->
       exists e', memtable t' !! i = Some e' /\
         key e' = key e /\ in_use e' = in_use e) /\
    (forall i, memtable_count t' <= Z.of_nat i ->
       memtable t' !! i = memtable t !! i).
Proof.
  intros Hal Hinv.
  destruct (lsm_add_cases k v t Hal Hinv)
    as [(i & e & Hfm & Hrun & Hal' & Hinv')
       |[(Ha' & Hlt & Hrun & Hal' & Hinv')|(Ha' & Hge & Hrun)]].
  - destruct Hfm as [(Hi & He & _) _].
    eexists _, _. split; [exact Hrun|]. split_and!; simpl; try done; try lia.
    + apply length_insert.
    + intros j ej Hj Hej. destruct (decide (j = i)) as [->|Hne].
      * exists (with_value v e). rewrite list_lookup_insert_eq
          by (by apply lookup_lt_Some in He).
        assert (ej = e) as -> by congruence. done.
      * exists ej. by rewrite list_lookup_insert_ne.
    + intros j Hj. apply list_lookup_insert_ne. lia.
  - destruct (Hinv) as [Hc _ _ _].
    eexists _, _. split; [exact Hrun|]. split_and!; simpl; try done; try lia.
    + apply length_insert.
    + intros j ej Hj Hej. exists ej. rewrite list_lookup_insert_ne; [done|lia].
    + intros j Hj. apply list_lookup_insert_ne. lia.
  - exists t, (log_full k v). split; [exact Hrun|].
    split_and!; try done; try lia. eauto.
Qed.

Lemma wf_in_bounds (t : LSMTree) : allocated t -> table_inv t -> in_bounds t.
Proof.
  intros Hal [[_ Hc] _ _ _]. by apply allocated_in_bounds.
Qed.

Lemma updated_first_match (k v : Z) (t : LSMTree) (i : nat) (e : Entry) :
  first_match k t i e ->
  first_match k (updated_tree v t i e) i (with_value v e).
Proof.
  intros [(Hi & He & Hm) Hno]. unfold first_match, match_at. simpl.
  split_and!; try done.
  - apply list_lookup_insert_eq. by apply lookup_lt_Some in He.
  - intros j e' Hj He'. rewrite list_lookup_insert_ne in He' by lia. eauto.
Qed.

Lemma appended_first_match (k v : Z) (t : LSMTree) :
  allocated t -> 0 <= memtable_count t < memtable_max t -> absent k t ->
  first_match k (appended_tree k v t) (Z.to_nat (memtable_count t))
    (mkEntry k v 1).
Proof.
  intros [_ Hlen] Hc Ha. unfold first_match, match_at. simpl.
  split_and!.
  - lia.
  - apply list_lookup_insert_eq. lia.
  - unfold matches. simpl. by rewrite Z.eqb_refl.
  - intros j e' Hj He'. rewrite list_lookup_insert_ne in He' by lia.
    apply (Ha j); [lia|done].
Qed.

(** ** A call and the reads around it *)

(** X2: a call of [lsm_add] for one key does not change what [lsm_get]
    reports for any other key: found or not, and the value. *)
Theorem lsm_get_unaffected_by_other_key (k k' v' out : Z) (t : LSMTree) :
  k' <> k ->
  allocated t -> table_inv t ->
  exists t' log r,
    lsm_add k' v' t = Returns tt t' log /\
    lsm_get k out t = Returns r t log_get /\
    lsm_get k out t' = Returns r t' log_get.
Proof.
  intros Hne Hal Hinv.
  destruct (present_or_absent k t) as [(i & e & Hfm)|Ha].
  - destruct (lsm_add_other_first k k' v' t i e Hne Hal Hinv Hfm)
      as (t' & log & Hrun & _ & _ & Hfm').
    exists t', log, (1, value e). split; [done|].
    split; by eapply lsm_get_hit.
  - destruct (lsm_add_other_absent k k' v' t Hne Hal Hinv Ha)
      as (t' & log & Hrun & Hal' & Hinv' & Ha' & _).
    exists t', log, (0, out). split; [done|].
    split; apply lsm_get_miss; try done; by apply wf_in_bounds.
Qed.

(** X3: two calls of [lsm_add] for the same key, one after the other, leave
    the table that the second call alone leaves: the later value wins and the
    key takes one slot only. *)
Theorem lsm_add_twice_same_key (k v1 v2 : Z) (t : LSMTree) :
  allocated t -> table_inv t ->
  exists t' log log',
    (lsm_add k v1 ;; lsm_add k v2) t = Returns tt t' log /\
    lsm_add k v2 t = Returns tt t' log'.
Proof.
  intros Hal Hinv.
  destruct (lsm_add_cases k v1 t Hal Hinv)
    as [(i & e & Hfm & Hrun & Hal' & Hinv')
       |[(Ha & Hlt & Hrun & Hal' & Hinv')|(Ha & Hge & Hrun)]].
  - exists (updated_tree v2 t i e), (log_added k v1 ++ log_added k v2),
      (log_added k v2).
    split; [|by apply lsm_add_update].
    apply (bind_returns _ _ t (updated_tree v1 t i e) _ tt tt _ _ Hrun).
    rewrite (lsm_add_update k v2 _ i (with_value v1 e))
      by (by apply updated_first_match).
    unfold updated_tree, with_memtable. simpl.
    by rewrite list_insert_insert_eq.
  - destruct (Hinv) as [Hc _ _ _].
    exists (appended_tree k v2 t), (log_added k v1 ++ log_added k v2),
      (log_added k v2).
    split; [|apply lsm_add_append; try done; lia].
    apply (bind_returns _ _ t (appended_tree k v1 t) _ tt tt _ _ Hrun).
    rewrite (lsm_add_update k v2 _ (Z.to_nat (memtable_count t)) (mkEntry k v1 1))
      by (apply appended_first_match; try done; lia).
    unfold updated_tree, appended_tree, with_memtable. simpl.
    by rewrite list_insert_insert_eq.
  - exists t, (log_full k v1 ++ log_full k v2), (log_full k v2).
    assert (Hrun2 : lsm_add k v2 t = Returns tt t (log_full k v2)).
    { apply lsm_add_reject; [by apply wf_in_bounds|done]. }
    split; [|done]. by apply (bind_returns _ _ t t t tt tt).
Qed.

(** ** Runs of [lsm_add] *)

Lemma lsm_add_all_shape (ops : list (Z * Z)) (t : LSMTree) :
  allocated t -> table_inv t ->
  exists t' log, lsm_add_all ops t = Returns tt t' log /\
    allocated t' /\ table_inv t' /\
    memtable_max t' = memtable_max t /\
    length (memtable t') = length (memtable t) /\
    memtable_count t <= memtable_count t' <=
      memtable_count t + Z.of_nat (length ops) /\
    (forall i e, Z.of_nat i < memtable_count t -> memtable t !! i = Some e ->
       exists e', memtable t' !! i = Some e' /\
         key e' = key e /\ in_use e' = in_use e) /\
    (forall i, memtable_count t' <= Z.of_nat i ->
       memtable t' !! i = memtable t !! i).
Proof.
  revert t. induction ops as [|[k v] ops IH]; intros t Hal Hinv.
  - exists t, []. split_and!; simpl; try done; try lia. eauto.
  - destruct (lsm_add_step k v t Hal Hinv)
      as (t1 & l1 & Hrun1 & Hal1 & Hinv1 & Hmax1 & Hlen1 & Hc1 & Hold1 & Hnew1).
    destruct (IH t1 Hal1 Hinv1)
      as (t2 & l2 & Hrun2 & Hal2 & Hinv2 & Hmax2 & Hlen2 & Hc2 & Hold2 & Hnew2).
    exists t2, (l1 ++ l2). split; [by apply (bind_returns _ _ t t1 t2 tt tt)|].
    split_and!; simpl; try done; try congruence; try lia.
    + intros i e Hi He. destruct (Hold1 i e Hi He) as (e1 & He1 & Hk1 & Hu1).
      destruct (Hold2 i e1) as (e2 & He2 & Hk2 & Hu2); [lia|done|].
      exists e2. split_and!; congruence.
    + intros i Hi. rewrite Hnew2 by done. apply Hnew1. lia.
Qed.

Lemma lsm_add_all_first_match (k : Z) (ops : list (Z * Z)) (t : LSMTree)
    (i : nat) (e : Entry) :
  allocated t -> table_inv t -> first_match k t i e ->
  exists t' log e', lsm_add_all ops t = Returns tt t' log /\
    allocated t' /\ table_inv t' /\ first_match k t' i e' /\
    value e' = default (value e) (last_write k ops).
Proof.
  revert t e. induction ops as [|[k' v'] ops IH]; intros t e Hal Hinv Hfm.
  - by exists t, [], e.
  - destruct (decide (k' = k)) as [->|Hne].
    + assert (He : memtable t !! i = Some e) by (by destruct Hfm as [(_ & ? & _) _]).
      destruct (update_preserves v' t i e He Hal Hinv) as [Hal1 Hinv1].
      destruct (IH _ _ Hal1 Hinv1 (updated_first_match k v' t i e Hfm))
        as (t2 & l2 & e2 & Hrun2 & Hal2 & Hinv2 & Hfm2 & Hv2).
      exists t2, (log_added k v' ++ l2), e2.
      split; [|split_and!; try done].
      * apply (bind_returns _ _ t (updated_tree v' t i e) t2 tt tt); [|done].
        by apply lsm_add_update.
      * rewrite Hv2. simpl. destruct (last_write k ops); [done|].
        by rewrite Z.eqb_refl.
    + destruct (lsm_add_other_first k k' v' t i e Hne Hal Hinv Hfm)
        as (t1 & l1 & Hrun1 & Hal1 & Hinv1 & Hfm1).
      destruct (IH t1 e Hal1 Hinv1 Hfm1)
        as (t2 & l2 & e2 & Hrun2 & Hal2 & Hinv2 & Hfm2 & Hv2).
      exists t2, (l1 ++ l2), e2.
      split; [by apply (bind_returns _ _ t t1 t2 tt tt)|split_and!; try done].
      rewrite Hv2. simpl. destruct (last_write k ops); [done|].
      by destruct (Z.eqb_spec k' k).
Qed.

Lemma lsm_add_all_room (k v : Z) (ops : list (Z * Z)) (t : LSMTree) :
  allocated t -> table_inv t ->
  memtable_count t + Z.of_nat (length ops) <= memtable_max t ->
  last_write k ops = Some v ->
  exists t' log i e, lsm_add_all ops t = Returns tt t' log /\
    allocated t' /\ table_inv t' /\ first_match k t' i e /\ value e = v.
Proof.
  revert t. induction ops as [|[k' v'] ops IH]; intros t Hal Hinv Hroom Hlw;
    [done|].
  simpl in Hroom, Hlw. destruct (last_write k ops) as [w|] eqn:Hrest.
  - assert (w = v) as -> by congruence.
    destruct (lsm_add_step k' v' t Hal Hinv)
      as (t1 & l1 & Hrun1 & Hal1 & Hinv1 & Hmax1 & _ & Hc1 & _).
    destruct (IH t1 Hal1 Hinv1) as (t2 & l2 & i & e & Hrun2 & H); [lia|done|].
    exists t2, (l1 ++ l2), i, e.
    split; [by apply (bind_returns _ _ t t1 t2 tt tt)|done].
  - destruct (Z.eqb_spec k' k) as [->|Hne]; [|done].
    assert (v' = v) as -> by congruence.
    destruct (lsm_add_then_first k v t Hal Hinv)
      as (t1 & l1 & i & e & Hrun1 & Hal1 & Hinv1 & Hfm1 & Hv1); [right; lia|].
    destruct (lsm_add_all_first_match k ops t1 i e Hal1 Hinv1 Hfm1)
      as (t2 & l2 & e2 & Hrun2 & Hal2 & Hinv2 & Hfm2 & Hv2).
    exists t2, (l1 ++ l2), i, e2.
    split; [by apply (bind_returns _ _ t t1 t2 tt tt)|split_and!; try done].
    rewrite Hv2, Hrest. done.
Qed.

Lemma lsm_add_all_absent (k : Z) (ops : list (Z * Z)) (t : LSMTree) :
  Forall (fun kv => fst kv <> k) ops ->
  allocated t -> table_inv t -> absent k t ->
  exists t' log, lsm_add_all ops t = Returns tt t' log /\
    allocated t' /\ table_inv t' /\ absent k t'.
Proof.
  intros Hops. revert t.
  induction Hops as [|[k' v'] ops Hk' _ IH]; intros t Hal Hinv Ha.
  - by exists t, [].
  - destruct (lsm_add_other_absent k k' v' t Hk' Hal Hinv Ha)
      as (t1 & l1 & Hrun1 & Hal1 & Hinv1 & Ha1 & _).
    destruct (IH t1 Hal1 Hinv1 Ha1) as (t2 & l2 & Hrun2 & H).
    exists t2, (l1 ++ l2).
    split; [by apply (bind_returns _ _ t t1 t2 tt tt)|done].
Qed.

Lemma lsm_add_all_full (k : Z) (ops : list (Z * Z)) (t : LSMTree) :
  allocated t -> table_inv t ->
  memtable_max t <= memtable_count t -> absent k t ->
  exists t' log, lsm_add_all ops t = Returns tt t' log /\
    allocated t' /\ table_inv t' /\
    memtable_count t' = memtable_count t /\ absent k t'.
Proof.
  revert t. induction ops as [|[k' v'] ops IH]; intros t Hal Hinv Hfull Ha.
  - by exists t, [].
  - destruct (lsm_add_cases k' v' t Hal Hinv)
      as [(i & e & Hfm & Hrun & Hal' & Hinv')
         |[(Ha' & Hlt & _)|(Ha' & Hge & Hrun)]]; [|lia|].
    + destruct (IH (updated_tree v' t i e)) as (t2 & l2 & Hrun2 & H);
        try done.
      { apply updated_absent; [|done]. by destruct Hfm as [(_ & ? & _) _]. }
      exists t2, (log_added k' v' ++ l2).
      split; [by apply (bind_returns _ _ t _ t2 tt tt _ _ Hrun)|done].
    + destruct (IH t) as (t2 & l2 & Hrun2 & H); try done.
      exists t2, (log_full k' v' ++ l2).
      split; [by apply (bind_returns _ _ t _ t2 tt tt _ _ Hrun)|done].
Qed.

Lemma lsm_add_all_fresh (ops : list (Z * Z)) (t : LSMTree) :
  allocated t -> table_inv t ->
  memtable_count t + Z.of_nat (length ops) <= memtable_max t ->
  NoDup (fst <$> ops) ->
  Forall (fun kv => absent (fst kv) t) ops ->
  exists t' log, lsm_add_all ops t = Returns tt t' log /\
    memtable_count t' = memtable_count t + Z.of_nat (length ops) /\
    (forall i, Z.of_nat i < memtable_count t ->
       memtable t' !! i = memtable t !! i) /\
    (forall j kv, ops !! j = Some kv ->
       memtable t' !! (Z.to_nat (memtable_count t) + j)%nat =
         Some (mkEntry (fst kv) (snd kv) 1)).
Proof.
  revert t. induction ops as [|[k v] ops IH];
    intros t Hal Hinv Hroom Hnd Hfresh.
  - exists t, []. split_and!; simpl; try done. lia.
  - simpl in Hroom. apply NoDup_cons in Hnd as [Hk Hnd].
    apply Forall_cons in Hfresh as [Ha Hfresh]. simpl in Ha.
    destruct (Hinv) as [Hc _ _ _]. destruct (Hal) as [_ Hlen].
    assert (Hrun1 : lsm_add k v t =
              Returns tt (appended_tree k v t) (log_added k v))
      by (apply lsm_add_append; try done; lia).
    destruct (append_preserves k v t) as [Hal1 Hinv1]; try done; [lia|].
    destruct (IH (appended_tree k v t)) as (t2 & l2 & Hrun2 & Hc2 & Hold2 & Hnew2);
      try done.
    { simpl. lia. }
    { apply Forall_forall. intros [k' v'] Hin. simpl.
      apply appended_absent; [|lia|].
      - intros ->. apply Hk. apply list_elem_of_fmap. by exists (k', v').
      - by apply (proj1 (Forall_forall _ _) Hfresh (k', v')). }
    exists t2, (log_added k v ++ l2).
    split; [by apply (bind_returns _ _ t _ t2 tt tt _ _ Hrun1)|].
    simpl in Hc2, Hold2, Hnew2. split_and!.
    + simpl. lia.
    + intros i Hi. rewrite Hold2 by lia. apply list_lookup_insert_ne. lia.
    + intros j kv Hj. destruct j as [|j]; simpl in Hj.
      * inversion Hj; subst. rewrite Nat.add_0_r, Hold2 by lia. simpl.
        apply list_lookup_insert_eq. lia.
      * rewrite <- (Hnew2 j kv Hj). f_equal. lia.
Qed.

Lemma wf_tree_full : allocated tree_full /\ table_inv tree_full.
Proof. apply reachable_inv, reachable_tree_full. Qed.

Lemma reachable_tree_four : reachable tree_four.
Proof.
  apply (reach_add
    {| memtable := replicate 4 (mkEntry 0 0 0); memtable_max := 4;
       memtable_count := 0 |} 1 10 _ (log_added 1 10)); [|done].
  by apply (reach_init tree_zero (replicate 4 (mkEntry 0 0 0)) 4 _ [RwlockInit]).
Qed.

Lemma wf_tree_four : allocated tree_four /\ table_inv tree_four.
Proof. apply reachable_inv, reachable_tree_four. Qed.

Lemma reachable_tree_eight : reachable tree_eight.
Proof. by apply (reach_init tree_zero block8 8 _ [RwlockInit]). Qed.

Lemma wf_tree_eight : allocated tree_eight /\ table_inv tree_eight.
Proof. apply reachable_inv, reachable_tree_eight. Qed.

(** X1: a key that no call of [lsm_add] has named is not found: after
    [lsm_init] and any run of calls for other keys, [lsm_get] returns 0 and
    leaves [*out_value], whatever the fresh block held. *)
Theorem never_written_never_found (t0 : LSMTree) (block : list Entry)
    (max_entries k out : Z) (ops : list (Z * Z)) :
  0 <= max_entries <= INT_MAX ->
  Z.of_nat (length block) = max_entries ->
  Forall (fun kv => fst kv <> k) ops ->
  exists t log,
    (lsm_init (Some block) max_entries ;; lsm_add_all ops) t0 =
      Returns tt t log /\
    lsm_get k out t = Returns (0, out) t log_get.
Proof.
  intros Hmax Hlen Hops.
  destruct (lsm_init_inv t0 block max_entries Hmax Hlen)
    as (t1 & Hrun1 & Hc1 & _ & Hal1 & Hinv1).
  destruct (lsm_add_all_absent k ops t1 Hops Hal1 Hinv1)
    as (t2 & l2 & Hrun2 & Hal2 & Hinv2 & Ha2).
  { intros i e Hi. lia. }
  exists t2, ([RwlockInit] ++ l2).
  split; [by apply (bind_returns _ _ t0 t1 t2 tt tt)|].
  apply lsm_get_miss; [by apply wf_in_bounds|done].
Qed.

Lemma never_written_never_found_witness :
  0 <= 2 <= INT_MAX /\
  Z.of_nat (length block2) = 2 /\
  Forall (fun kv : Z * Z => fst kv <> 7) [(1, 10); (0, 5)] /\
  exists t log,
    (lsm_init (Some block2) 2 ;; lsm_add_all [(1, 10); (0, 5)]) tree_zero =
      Returns tt t log /\
    lsm_get 7 (-1) t = Returns (0, -1) t log_get.
Proof.
  assert (Hmax : 0 <= 2 <= INT_MAX) by done.
  assert (Hlen : Z.of_nat (length block2) = 2) by done.
  assert (Hops : Forall (fun kv : Z * Z => fst kv <> 7) [(1, 10); (0, 5)])
    by (by repeat constructor).
  split; [exact Hmax|]. split; [exact Hlen|]. split; [exact Hops|].
  exact (never_written_never_found tree_zero block2 2 7 (-1) _ Hmax Hlen Hops).
Defined.

(** X4: a run of [lsm_add] calls only appends and overwrites values.  It
    returns; the capacity and the block length stay; the count never goes
    down, grows by at most one per call and stays within the capacity; every
    slot below the old count keeps its key and its flag; no slot from the
    new count on is written. *)
Theorem lsm_add_all_append_only (ops : list (Z * Z)) (t : LSMTree) :
  allocated t -> table_inv t ->
  exists t' log, lsm_add_all ops t = Returns tt t' log /\
    memtable_max t' = memtable_max t /\
    length (memtable t') = length (memtable t) /\
    memtable_count t <= memtable_count t' <=
      memtable_count t + Z.of_nat (length ops) /\
    memtable_count t' <= memtable_max t /\
    (forall i e, Z.of_nat i < memtable_count t -> memtable t !! i = Some e ->
       exists e', memtable t' !! i = Some e' /\
         key e' = key e /\ in_use e' = in_use e) /\
    (forall i, memtable_count t' <= Z.of_nat i ->
       memtable t' !! i = memtable t !! i).
Proof.
  intros Hal Hinv.
  destruct (lsm_add_all_shape ops t Hal Hinv)
    as (t' & log & Hrun & _ & [[_ Hc] _ _ _] & Hmax & Hlen & Hcnt & Hold & Hnew).
  rewrite Hmax in Hc. exists t', log. split_and!; try done; lia.
Qed.

Lemma bind_ext {A B} (m : M A) (f g : A -> M B) (t : LSMTree) :
  (forall a t1, f a t1 = g a t1) -> bind m f t = bind m g t.
Proof.
  intros H. unfold bind. destruct (m t) as [a t1 l1| |]; [|done..].
  by rewrite H.
Qed.

Lemma lsm_add_all_append_only_witness :
  allocated tree_four /\ table_inv tree_four /\
  exists t' log, lsm_add_all [(2, 20); (1, 11)] tree_four = Returns tt t' log /\
    memtable_max t' = memtable_max tree_four /\
    length (memtable t') = length (memtable tree_four) /\
    memtable_count tree_four <= memtable_count t' <=
      memtable_count tree_four + Z.of_nat (length [(2, 20); (1, 11)]) /\
    memtable_count t' <= memtable_max tree_four /\
    (forall i e, Z.of_nat i < memtable_count tree_four ->
       memtable tree_four !! i = Some e ->
       exists e', memtable t' !! i = Some e' /\
         key e' = key e /\ in_use e' = in_use e) /\
    (forall i, memtable_count t' <= Z.of_nat i ->
       memtable t' !! i = memtable tree_four !! i).
Proof.
  split; [exact (proj1 wf_tree_four)|]. split; [exact (proj2 wf_tree_four)|].
  exact (lsm_add_all_append_only [(2, 20); (1, 11)] tree_four
           (proj1 wf_tree_four) (proj2 wf_tree_four)).
Defined.

(** X5: a key that is in the table is never refused, full table or not:
    after any run of [lsm_add] calls, [lsm_get] finds it, with the value of
    the last call of the run for that key, or its old value when the run has
    none. *)
Theorem present_key_follows_writes (k out : Z) (ops : list (Z * Z))
    (t : LSMTree) :
  allocated t -> table_inv t -> present k t ->
  exists t' log v0,
    lsm_get k out t = Returns (1, v0) t log_get /\
    lsm_add_all ops t = Returns tt t' log /\
    lsm_get k out t' = Returns (1, default v0 (last_write k ops)) t' log_get.
Proof.
  intros Hal Hinv Hp.
  destruct (present_first_match k t Hp) as (i & e & Hfm).
  destruct (lsm_add_all_first_match k ops t i e Hal Hinv Hfm)
    as (t' & log & e' & Hrun & _ & _ & Hfm' & Hv).
  exists t', log, (value e). split; [by eapply lsm_get_hit|].
  split; [done|]. rewrite <- Hv. by eapply lsm_get_hit.
Qed.

Lemma present_key_follows_writes_witness :
  allocated tree_full /\ table_inv tree_full /\ present 2 tree_full /\
  exists t' log v0,
    lsm_get 2 0 tree_full = Returns (1, v0) tree_full log_get /\
    lsm_add_all [(2, 21); (3, 30); (2, 22); (1, 11)] tree_full =
      Returns tt t' log /\
    lsm_get 2 0 t' =
      Returns (1, default v0 (last_write 2 [(2, 21); (3, 30); (2, 22); (1, 11)]))
        t' log_get.
Proof.
  assert (Hp : present 2 tree_full).
  { exists 1%nat, (mkEntry 2 20 1). by split_and!. }
  split; [exact (proj1 wf_tree_full)|]. split; [exact (proj2 wf_tree_full)|].
  split; [exact Hp|].
  exact (present_key_follows_writes 2 0 _ tree_full
           (proj1 wf_tree_full) (proj2 wf_tree_full) Hp).
Defined.

(** X6: when the table has room for one new slot per call of a run, no call
    of the run is lost: [lsm_get] of a key the run names finds the value of
    the last call for that key. *)
Theorem writes_with_room_are_read (k v out : Z) (ops : list (Z * Z))
    (t : LSMTree) :
  allocated t -> table_inv t ->
  memtable_count t + Z.of_nat (length ops) <= memtable_max t ->
  last_write k ops = Some v ->
  exists t' log,
    lsm_add_all ops t = Returns tt t' log /\
    lsm_get k out t' = Returns (1, v) t' log_get.
Proof.
  intros Hal Hinv Hroom Hlw.
  destruct (lsm_add_all_room k v ops t Hal Hinv Hroom Hlw)
    as (t' & log & i & e & Hrun & _ & _ & Hfm & <-).
  exists t', log. split; [done|]. by eapply lsm_get_hit.
Qed.

Lemma writes_with_room_are_read_witness :
  allocated tree_four /\ table_inv tree_four /\
  memtable_count tree_four + Z.of_nat (length [(5, 50); (1, 11); (5, 51)]) <=
    memtable_max tree_four /\
  last_write 5 [(5, 50); (1, 11); (5, 51)] = Some 51 /\
  exists t' log,
    lsm_add_all [(5, 50); (1, 11); (5, 51)] tree_four = Returns tt t' log /\
    lsm_get 5 0 t' = Returns (1, 51) t' log_get.
Proof.
  assert (Hroom : memtable_count tree_four +
            Z.of_nat (length [(5, 50); (1, 11); (5, 51)]) <=
            memtable_max tree_four) by done.
  assert (Hlw : last_write 5 [(5, 50); (1, 11); (5, 51)] = Some 51) by done.
  split; [exact (proj1 wf_tree_four)|]. split; [exact (proj2 wf_tree_four)|].
  split; [exact Hroom|]. split; [exact Hlw|].
  exact (writes_with_room_are_read 5 51 0 _ tree_four
           (proj1 wf_tree_four) (proj2 wf_tree_four) Hroom Hlw).
Defined.

(** X7: a run of calls for keys that are new and pairwise distinct, on a
    table with room for them, fills the slots from the old count on in call
    order, each with its key, value and flag 1, adds their number to the
    count, and leaves every slot below the old count as it was. *)
Theorem fresh_keys_fill_in_order (ops : list (Z * Z)) (t : LSMTree) :
  allocated t -> table_inv t ->
  memtable_count t + Z.of_nat (length ops) <= memtable_max t ->
  NoDup (fst <$> ops) ->
  Forall (fun kv => absent (fst kv) t) ops ->
  exists t' log, lsm_add_all ops t = Returns tt t' log /\
    memtable_count t' = memtable_count t + Z.of_nat (length ops) /\
    (forall i, Z.of_nat i < memtable_count t ->
       memtable t' !! i = memtable t !! i) /\
    (forall j kv, ops !! j = Some kv ->
       memtable t' !! (Z.to_nat (memtable_count t) + j)%nat =
         Some (mkEntry (fst kv) (snd kv) 1)).
Proof. apply lsm_add_all_fresh. Qed.

Lemma fresh_keys_fill_in_order_witness :
  allocated tree_four /\ table_inv tree_four /\
  memtable_count tree_four + Z.of_nat (length [(9, 90); (4, 40)]) <=
    memtable_max tree_four /\
  NoDup (fst <$> [(9, 90); (4, 40)]) /\
  Forall (fun kv : Z * Z => absent (fst kv) tree_four) [(9, 90); (4, 40)] /\
  exists t' log, lsm_add_all [(9, 90); (4, 40)] tree_four = Returns tt t' log /\
    memtable_count t' =
      memtable_count tree_four + Z.of_nat (length [(9, 90); (4, 40)]) /\
    (forall i, Z.of_nat i < memtable_count tree_four ->
       memtable t' !! i = memtable tree_four !! i) /\
    (forall j kv, [(9, 90); (4, 40)] !! j = Some kv ->
       memtable t' !! (Z.to_nat (memtable_count tree_four) + j)%nat =
         Some (mkEntry (fst kv) (snd kv) 1)).
Proof.
  assert (Hroom : memtable_count tree_four +
            Z.of_nat (length [(9, 90); (4, 40)]) <= memtable_max tree_four)
    by done.
  assert (Hnd : NoDup (fst <$> [(9, 90); (4, 40)])).
  { refine (bool_decide_unpack _ _). vm_compute. exact I. }
  assert (Hfresh : Forall (fun kv : Z * Z => absent (fst kv) tree_four)
                     [(9, 90); (4, 40)]).
  { repeat constructor; by apply absentb_absent. }
  split; [exact (proj1 wf_tree_four)|]. split; [exact (proj2 wf_tree_four)|].
  split; [exact Hroom|]. split; [exact Hnd|]. split; [exact Hfresh|].
  exact (fresh_keys_fill_in_order _ tree_four
           (proj1 wf_tree_four) (proj2 wf_tree_four) Hroom Hnd Hfresh).
Defined.

(** X8: a full table admits no new key, ever: when the count has reached the
    capacity and a key is not in the table, then after any run of [lsm_add]
    calls, calls for that key included, the count is the same and [lsm_get]
    of the key returns 0 and leaves [*out_value]. *)
Theorem full_table_admits_no_new_key (k out : Z) (ops : list (Z * Z))
    (t : LSMTree) :
  allocated t -> table_inv t ->
  memtable_max t <= memtable_count t ->
  absent k t ->
  exists t' log, lsm_add_all ops t = Returns tt t' log /\
    memtable_count t' = memtable_count t /\
    lsm_get k out t' = Returns (0, out) t' log_get.
Proof.
  intros Hal Hinv Hfull Ha.
  destruct (lsm_add_all_full k ops t Hal Hinv Hfull Ha)
    as (t' & log & Hrun & Hal' & Hinv' & Hc & Ha').
  exists t', log. split_and!; try done.
  apply lsm_get_miss; [by apply wf_in_bounds|done].
Qed.

Lemma full_table_admits_no_new_key_witness :
  allocated tree_full /\ table_inv tree_full /\
  memtable_max tree_full <= memtable_count tree_full /\
  absent 3 tree_full /\
  exists t' log,
    lsm_add_all [(3, 30); (1, 11); (3, 31)] tree_full = Returns tt t' log /\
    memtable_count t' = memtable_count tree_full /\
    lsm_get 3 0 t' = Returns (0, 0) t' log_get.
Proof.
  assert (Hfull : memtable_max tree_full <= memtable_count tree_full) by done.
  assert (Ha : absent 3 tree_full) by (by apply absentb_absent).
  split; [exact (proj1 wf_tree_full)|]. split; [exact (proj2 wf_tree_full)|].
  split; [exact Hfull|]. split; [exact Ha|].
  exact (full_table_admits_no_new_key 3 0 _ tree_full
           (proj1 wf_tree_full) (proj2 wf_tree_full) Hfull Ha).
Defined.

Lemma lsm_get_unaffected_by_other_key_witness :
  3 <> 2 /\ allocated tree_four /\ table_inv tree_four /\
  exists t' log r,
    lsm_add 3 30 tree_four = Returns tt t' log /\
    lsm_get 2 0 tree_four = Returns r tree_four log_get /\
    lsm_get 2 0 t' = Returns r t' log_get.
Proof.
  assert (Hne : 3 <> 2) by done.
  split; [exact Hne|].
  split; [exact (proj1 wf_tree_four)|]. split; [exact (proj2 wf_tree_four)|].
  exact (lsm_get_unaffected_by_other_key 2 3 30 0 tree_four Hne
           (proj1 wf_tree_four) (proj2 wf_tree_four)).
Defined.

Lemma lsm_add_twice_same_key_witness :
  allocated tree_four /\ table_inv tree_four /\
  exists t' log log',
    (lsm_add 5 50 ;; lsm_add 5 51) tree_four = Returns tt t' log /\
    lsm_add 5 51 tree_four = Returns tt t' log'.
Proof.
  split; [exact (proj1 wf_tree_four)|]. split; [exact (proj2 wf_tree_four)|].
  exact (lsm_add_twice_same_key 5 50 51 tree_four
           (proj1 wf_tree_four) (proj2 wf_tree_four)).
Defined.

(** * The worker threads *)

Lemma bind_usleep {B} (usec : Z) (f : unit -> M B) (t : LSMTree) :
  bind (usleep usec) f t = f tt t.
Proof. unfold bind, usleep, ret. by destruct (f tt t). Qed.

Lemma writer_loop_calls (n : Z) (todo : nat) (i : Z) (t : LSMTree) :
  writer_loop n todo i t = lsm_add_all (writer_calls n todo i) t.
Proof.
  revert i t. induction todo as [|todo IH]; intros i t; [done|].
  simpl. unfold bind at 1 3.
  destruct (lsm_add _ _ t) as [[] t1 l1| |]; [|done..].
  by rewrite bind_usleep, IH.
Qed.

Lemma writer_calls_length (n : Z) (todo : nat) (i : Z) :
  length (writer_calls n todo i) = todo.
Proof. revert i. induction todo as [|todo IH]; intros i; simpl; by rewrite ?IH. Qed.

Lemma writer_calls_values (n : Z) (todo : nat) (i : Z) :
  Forall (fun kv => snd kv = writer_value (fst kv)) (writer_calls n todo i).
Proof.
  revert i. induction todo as [|todo IH]; intros i; simpl; by constructor.
Qed.

Lemma writer_calls_keys (n : Z) (todo : nat) (i j : Z) :
  i <= j < i + Z.of_nat todo ->
  writer_key n j ∈ (fst <$> writer_calls n todo i).
Proof.
  revert i. induction todo as [|todo IH]; intros i Hj; [lia|].
  simpl. destruct (decide (j = i)) as [->|Hne]; [left|right].
  apply IH. lia.
Qed.

Lemma last_write_notin (k : Z) (ops : list (Z * Z)) :
  k ∉ (fst <$> ops) -> last_write k ops = None.
Proof.
  induction ops as [|[k' v'] ops IH]; intros Hnin; [done|].
  simpl in *. apply not_elem_of_cons in Hnin as [Hne Hnin].
  rewrite IH by done. by destruct (Z.eqb_spec k' k).
Qed.

Lemma last_write_function (f : Z -> Z) (k : Z) (ops : list (Z * Z)) :
  Forall (fun kv => snd kv = f (fst kv)) ops ->
  k ∈ (fst <$> ops) ->
  last_write k ops = Some (f k).
Proof.
  induction 1 as [|[k' v'] ops Hv _ IH]; intros Hin.
  - by apply elem_of_nil in Hin.
  - simpl in *. destruct (decide (k ∈ (fst <$> ops))) as [Hin'|Hnin].
    + by rewrite IH.
    + apply elem_of_cons in Hin as [->|Hin]; [|done].
      by rewrite last_write_notin, Z.eqb_refl, Hv.
Qed.

Lemma writer_key_plain (n i : Z) :
  int_range (n * 100) -> int_range (n * 100 + i) ->
  writer_key n i = n * 100 + i.
Proof.
  intros H1 H2. unfold writer_key. by rewrite (wrap_int_id _ H1), wrap_int_id.
Qed.

Lemma writer_value_plain (k : Z) :
  int_range (k * 10) -> writer_value k = k * 10.
Proof. apply wrap_int_id. Qed.

Lemma writer_thread_run (targ : ThreadArg) (t t' : LSMTree) (log : list Event) :
  lsm_add_all (writer_calls (id targ) (Z.to_nat (operations targ)) 0) t =
    Returns tt t' log ->
  writer_thread targ t =
    Returns tt t' (log ++ [Stdout (msg_writer_finished (id targ))]).
Proof.
  intros Hrun. unfold writer_thread.
  apply (bind_returns _ _ t t' t' tt tt); [|done].
  by rewrite writer_loop_calls.
Qed.

(** X9: [writer_thread] alone on a table with room for its calls stores all
    of them: afterwards [lsm_get] finds each key [id * 100 + i], for [i]
    below [operations], with value ten times the key. *)
Theorem writer_thread_stores (targ : ThreadArg) (t : LSMTree) :
  allocated t -> table_inv t ->
  0 <= id targ -> 0 <= operations targ ->
  (id targ * 100 + operations targ) * 10 <= INT_MAX ->
  memtable_count t + operations targ <= memtable_max t ->
  exists t' log,
    writer_thread targ t = Returns tt t' log /\
    forall i out, 0 <= i < operations targ ->
      lsm_get (id targ * 100 + i) out t' =
        Returns (1, (id targ * 100 + i) * 10) t' log_get.
Proof.
  intros Hal Hinv Hid Hops Hrange Hroom.
  set (calls := writer_calls (id targ) (Z.to_nat (operations targ)) 0).
  destruct (lsm_add_all_shape calls t Hal Hinv) as (t' & log & Hrun & _).
  exists t', (log ++ [Stdout (msg_writer_finished (id targ))]).
  split; [by apply writer_thread_run|].
  intros i out Hi.
  assert (Hk : writer_key (id targ) i = id targ * 100 + i).
  { apply writer_key_plain; unfold int_range, INT_MIN, INT_MAX in *; lia. }
  assert (Hv : writer_value (id targ * 100 + i) = (id targ * 100 + i) * 10).
  { apply writer_value_plain; unfold int_range, INT_MIN, INT_MAX in *; lia. }
  destruct (lsm_add_all_room (id targ * 100 + i) ((id targ * 100 + i) * 10)
              calls t Hal Hinv) as (t2 & l2 & j & e & Hrun2 & _ & _ & Hfm & <-).
  { unfold calls. rewrite writer_calls_length. lia. }
  { rewrite <- Hv. apply last_write_function; [apply writer_calls_values|].
    rewrite <- Hk. apply writer_calls_keys. lia. }
  rewrite Hrun in Hrun2. inversion Hrun2; subst t2 l2.
  by eapply lsm_get_hit.
Qed.

Lemma writer_thread_stores_witness :
  allocated tree_four /\ table_inv tree_four /\
  0 <= id (mkThreadArg 2 3) /\ 0 <= operations (mkThreadArg 2 3) /\
  (id (mkThreadArg 2 3) * 100 + operations (mkThreadArg 2 3)) * 10 <= INT_MAX /\
  memtable_count tree_four + operations (mkThreadArg 2 3) <=
    memtable_max tree_four /\
  exists t' log,
    writer_thread (mkThreadArg 2 3) tree_four = Returns tt t' log /\
    forall i out, 0 <= i < operations (mkThreadArg 2 3) ->
      lsm_get (id (mkThreadArg 2 3) * 100 + i) out t' =
        Returns (1, (id (mkThreadArg 2 3) * 100 + i) * 10) t' log_get.
Proof.
  assert (Hid : 0 <= id (mkThreadArg 2 3)) by done.
  assert (Hops : 0 <= operations (mkThreadArg 2 3)) by done.
  assert (Hrange : (id (mkThreadArg 2 3) * 100 + operations (mkThreadArg 2 3))
                   * 10 <= INT_MAX) by done.
  assert (Hroom : memtable_count tree_four + operations (mkThreadArg 2 3) <=
                  memtable_max tree_four) by done.
  split; [exact (proj1 wf_tree_four)|]. split; [exact (proj2 wf_tree_four)|].
  split; [exact Hid|]. split; [exact Hops|]. split; [exact Hrange|].
  split; [exact Hroom|].
  exact (writer_thread_stores (mkThreadArg 2 3) tree_four
           (proj1 wf_tree_four) (proj2 wf_tree_four) Hid Hops Hrange Hroom).
Defined.

(** ** Laws of sequencing *)

Lemma bind_ret_l {A B} (a : A) (f : A -> M B) (t : LSMTree) :
  bind (ret a) f t = f a t.
Proof. unfold bind, ret. by destruct (f a t). Qed.

Lemma bind_assoc {A B C} (m : M A) (f : A -> M B) (g : B -> M C)
    (t : LSMTree) :
  bind (bind m f) g t = bind m (fun a => bind (f a) g) t.
Proof.
  unfold bind. destruct (m t) as [a t1 l1| |]; [|done..].
  destruct (f a t1) as [b t2 l2| |]; [|done..].
  destruct (g b t2) as [c t3 l3|s l3|]; simpl; try done; by rewrite app_assoc.
Qed.

Lemma lsm_add_all_app (a b : list (Z * Z)) (t : LSMTree) :
  lsm_add_all (a ++ b) t = (lsm_add_all a ;; lsm_add_all b) t.
Proof.
  revert t. induction a as [|[k v] a IH]; intros t; simpl.
  - by rewrite bind_ret_l.
  - rewrite bind_assoc. apply bind_ext. intros _ t1. apply IH.
Qed.

Lemma stdout_lines_app (l1 l2 : list Event) :
  stdout_lines (l1 ++ l2) = stdout_lines l1 ++ stdout_lines l2.
Proof.
  induction l1 as [|e l1 IH]; [done|]. destruct e; simpl; by rewrite IH.
Qed.

Lemma stderr_lines_app (l1 l2 : list Event) :
  stderr_lines (l1 ++ l2) = stderr_lines l1 ++ stderr_lines l2.
Proof.
  induction l1 as [|e l1 IH]; [done|]. destruct e; simpl; by rewrite IH.
Qed.

(** ** [reader_thread] *)

Lemma probe_line_hit (n k : Z) (t : LSMTree) (i : nat) (e : Entry) :
  first_match k t i e -> probe_line n k t = msg_got n k (value e).
Proof.
  intros Hfm. unfold probe_line. by rewrite (lsm_get_hit k 0 t i e Hfm).
Qed.

Lemma probe_line_miss (n k : Z) (t : LSMTree) :
  in_bounds t -> absent k t -> probe_line n k t = msg_not_found n k.
Proof.
  intros Hb Ha. unfold probe_line. by rewrite (lsm_get_miss k 0 t Hb Ha).
Qed.

Lemma reader_probe_run (n k val : Z) (t : LSMTree) :
  in_bounds t ->
  exists val', reader_probe n k val t =
    Returns val' t (log_get ++ [Stdout (probe_line n k t)]).
Proof.
  intros Hb. destruct (present_or_absent k t) as [(i & e & Hfm)|Ha].
  - exists (value e). unfold reader_probe, bind.
    by rewrite (lsm_get_hit k val t i e Hfm), (probe_line_hit n k t i e Hfm).
  - exists val. unfold reader_probe, bind.
    by rewrite (lsm_get_miss k val t Hb Ha), (probe_line_miss n k t Hb Ha).
Qed.

Lemma reader_loop_run (n : Z) (junk : Z -> Z) (t : LSMTree) (todo : nat)
    (i : Z) :
  in_bounds t ->
  reader_loop n junk todo i t = Returns tt t (reader_log n t todo i).
Proof.
  intros Hb. revert i. induction todo as [|todo IH]; intros i; [done|].
  simpl.
  destruct (reader_probe_run n (wrap_int (100 + i)) (junk i) t Hb)
    as [val1 Hrun1].
  destruct (reader_probe_run n (wrap_int (200 + i)) val1 t Hb)
    as [val2 Hrun2].
  unfold bind at 1. rewrite Hrun1. unfold bind at 1. rewrite Hrun2.
  by rewrite bind_usleep, IH.
Qed.

Lemma reader_thread_run (targ : ThreadArg) (junk : Z -> Z) (t : LSMTree) :
  in_bounds t ->
  reader_thread targ junk t =
    Returns tt t
      (reader_log (id targ) t (Z.to_nat (operations targ)) 0 ++
       [Stdout (msg_reader_finished (id targ))]).
Proof.
  intros Hb. unfold reader_thread.
  apply (bind_returns _ _ t t t tt tt); [|done]. by apply reader_loop_run.
Qed.

Lemma reader_log_quiet (n : Z) (t : LSMTree) (todo : nat) (i : Z) :
  (Wrlock ∉ reader_log n t todo i) /\
  stderr_lines (reader_log n t todo i) = [] /\
  length (stdout_lines (reader_log n t todo i)) = (2 * todo)%nat.
Proof.
  revert i. induction todo as [|todo IH]; intros i.
  - split_and!; try done. apply not_elem_of_nil.
  - destruct (IH (i + 1)) as (Hw & He & Hl). simpl. split_and!.
    + rewrite !not_elem_of_cons. by split_and!.
    + done.
    + rewrite Hl. lia.
Qed.

(** X10: [reader_thread] only reads.  On a table whose first count slots
    exist it returns and leaves the table as it was, takes the lock for
    reading only, writes nothing on the standard error stream and two lines
    per iteration plus the closing line on the standard output; and what it
    prints does not depend on what its uninitialised local [value] holds. *)
Theorem reader_thread_reads_only (targ : ThreadArg) (t : LSMTree) :
  in_bounds t ->
  exists log,
    (forall junk, reader_thread targ junk t = Returns tt t log) /\
    (Wrlock ∉ log) /\
    stderr_lines log = [] /\
    length (stdout_lines log) = (2 * Z.to_nat (operations targ) + 1)%nat.
Proof.
  intros Hb.
  destruct (reader_log_quiet (id targ) t (Z.to_nat (operations targ)) 0)
    as (Hw & He & Hl).
  eexists. split; [intros junk; by apply reader_thread_run|]. split_and!.
  - rewrite elem_of_app, list_elem_of_singleton. by intros [?|?].
  - by rewrite stderr_lines_app, He.
  - rewrite stdout_lines_app, length_app, Hl. simpl. lia.
Qed.

Lemma reader_thread_reads_only_witness :
  in_bounds tree_full /\
  exists log,
    (forall junk, reader_thread (mkThreadArg 1 3) junk tree_full =
       Returns tt tree_full log) /\
    (Wrlock ∉ log) /\
    stderr_lines log = [] /\
    length (stdout_lines log) =
      (2 * Z.to_nat (operations (mkThreadArg 1 3)) + 1)%nat.
Proof.
  assert (Hb : in_bounds tree_full) by (by unfold in_bounds).
  split; [exact Hb|].
  exact (reader_thread_reads_only (mkThreadArg 1 3) tree_full Hb).
Defined.

(** ** Writers, then readers *)

Lemma calls_run_values (calls : list (Z * Z)) (t : LSMTree) :
  allocated t -> table_inv t ->
  memtable_count t + Z.of_nat (length calls) <= memtable_max t ->
  Forall (fun kv => snd kv = writer_value (fst kv)) calls ->
  exists t' log, lsm_add_all calls t = Returns tt t' log /\
    allocated t' /\ table_inv t' /\
    forall k, k ∈ (fst <$> calls) ->
      exists i e, first_match k t' i e /\ value e = writer_value k.
Proof.
  intros Hal Hinv Hroom Hvals.
  destruct (lsm_add_all_shape calls t Hal Hinv)
    as (t' & log & Hrun & Hal' & Hinv' & _).
  exists t', log. split_and!; try done. intros k Hk.
  destruct (lsm_add_all_room k (writer_value k) calls t Hal Hinv Hroom)
    as (t2 & l2 & i & e & Hrun2 & _ & _ & Hfm & Hv).
  { by apply last_write_function. }
  rewrite Hrun in Hrun2. inversion Hrun2; subst t2 l2. by exists i, e.
Qed.

Lemma writer_calls_keys_plain (n : Z) (todo : nat) (i : Z) :
  0 <= n -> 0 <= i -> n * 100 + i + Z.of_nat todo <= INT_MAX ->
  fst <$> writer_calls n todo i =
    (fun j => n * 100 + j) <$> seqZ i (Z.of_nat todo).
Proof.
  intros Hn. revert i. induction todo as [|todo IH]; intros i Hi Hmax; [done|].
  rewrite seqZ_cons by lia. simpl.
  rewrite writer_key_plain
    by (unfold int_range, INT_MIN, INT_MAX in *; lia).
  f_equal. rewrite IH by lia. f_equal. f_equal; lia.
Qed.

Lemma reader_log_lines (n : Z) (t : LSMTree) (A B : Z -> string)
    (todo : nat) (i : Z) :
  (forall j, i <= j < i + Z.of_nat todo ->
     probe_line n (wrap_int (100 + j)) t = A j /\
     probe_line n (wrap_int (200 + j)) t = B j) ->
  stdout_lines (reader_log n t todo i) =
    flat_map (fun j => [A j; B j]) (seqZ i (Z.of_nat todo)).
Proof.
  revert i. induction todo as [|todo IH]; intros i H; [done|].
  rewrite seqZ_cons by lia. simpl.
  destruct (H i) as [-> ->]; [lia|]. f_equal. f_equal.
  rewrite IH by (intros j Hj; apply H; lia).
  f_equal. f_equal; lia.
Qed.

(** X11: the two writers of [main], one after the other, and then a reader:
    on a table with room for the writers' calls the reader finds every key
    it asks for, and prints for each [i] below [ops] the lines for keys
    [100 + i] and [200 + i] with values ten times the key, then its closing
    line; the table is the one the writers left. *)
Theorem reader_after_writers (ops r : Z) (junk : Z -> Z) (t : LSMTree) :
  allocated t -> table_inv t ->
  0 <= ops -> (200 + ops) * 10 <= INT_MAX ->
  memtable_count t + 2 * ops <= memtable_max t ->
  exists t' logw logr,
    (writer_thread (mkThreadArg 1 ops) ;; writer_thread (mkThreadArg 2 ops)) t =
      Returns tt t' logw /\
    reader_thread (mkThreadArg r ops) junk t' = Returns tt t' logr /\
    stdout_lines logr =
      flat_map (fun i => [msg_got r (100 + i) ((100 + i) * 10);
                          msg_got r (200 + i) ((200 + i) * 10)])
        (seqZ 0 ops) ++ [msg_reader_finished r].
Proof.
  intros Hal Hinv Hops Hrange Hroom.
  set (calls1 := writer_calls 1 (Z.to_nat ops) 0).
  set (calls2 := writer_calls 2 (Z.to_nat ops) 0).
  destruct (calls_run_values (calls1 ++ calls2) t Hal Hinv)
    as (t' & log & Hrun & Hal' & Hinv' & Hvals).
  { rewrite length_app. unfold calls1, calls2.
    rewrite !writer_calls_length. lia. }
  { apply Forall_app. split; apply writer_calls_values. }
  rewrite lsm_add_all_app in Hrun. unfold bind in Hrun.
  destruct (lsm_add_all calls1 t) as [[] t1 l1| |] eqn:Hrun1; [|done..].
  destruct (lsm_add_all calls2 t1) as [[] t2 l2| |] eqn:Hrun2; [|done..].
  inversion Hrun; subst t2 log. clear Hrun.
  assert (Hb : in_bounds t') by (by apply wf_in_bounds).
  eexists t', _, _. split_and!.
  - apply (bind_returns _ _ t t1 t' tt tt).
    + by apply (writer_thread_run (mkThreadArg 1 ops)).
    + by apply (writer_thread_run (mkThreadArg 2 ops)).
  - by apply reader_thread_run.
  - rewrite stdout_lines_app. simpl. f_equal.
    rewrite <- (Z2Nat.id ops) at 2 by done. apply reader_log_lines.
    intros j Hj.
    assert (Hin1 : 100 + j ∈ (fst <$> calls1 ++ calls2)).
    { rewrite fmap_app, elem_of_app. left. unfold calls1.
      rewrite writer_calls_keys_plain by (unfold INT_MAX in *; lia).
      apply list_elem_of_fmap. exists j. split; [simpl; lia|].
      apply elem_of_seqZ. lia. }
    assert (Hin2 : 200 + j ∈ (fst <$> calls1 ++ calls2)).
    { rewrite fmap_app, elem_of_app. right. unfold calls2.
      rewrite writer_calls_keys_plain by (unfold INT_MAX in *; lia).
      apply list_elem_of_fmap. exists j. split; [simpl; lia|].
      apply elem_of_seqZ. lia. }
    destruct (Hvals _ Hin1) as (i1 & e1 & Hfm1 & Hv1).
    destruct (Hvals _ Hin2) as (i2 & e2 & Hfm2 & Hv2).
    rewrite writer_value_plain in Hv1, Hv2
      by (unfold int_range, INT_MIN, INT_MAX in *; lia).
    rewrite !wrap_int_id by (unfold int_range, INT_MIN, INT_MAX in *; lia).
    rewrite (probe_line_hit r _ t' i1 e1 Hfm1), (probe_line_hit r _ t' i2 e2 Hfm2).
    by rewrite Hv1, Hv2.
Qed.

Lemma reader_after_writers_witness :
  allocated tree_eight /\ table_inv tree_eight /\
  0 <= 3 /\ (200 + 3) * 10 <= INT_MAX /\
  memtable_count tree_eight + 2 * 3 <= memtable_max tree_eight /\
  exists t' logw logr,
    (writer_thread (mkThreadArg 1 3) ;; writer_thread (mkThreadArg 2 3))
      tree_eight = Returns tt t' logw /\
    reader_thread (mkThreadArg 7 3) (fun _ => 0) t' = Returns tt t' logr /\
    stdout_lines logr =
      flat_map (fun i => [msg_got 7 (100 + i) ((100 + i) * 10);
                          msg_got 7 (200 + i) ((200 + i) * 10)])
        (seqZ 0 3) ++ [msg_reader_finished 7].
Proof.
  assert (Hops : 0 <= 3) by done.
  assert (Hrange : (200 + 3) * 10 <= INT_MAX) by done.
  assert (Hroom : memtable_count tree_eight + 2 * 3 <= memtable_max tree_eight)
    by done.
  split; [exact (proj1 wf_tree_eight)|]. split; [exact (proj2 wf_tree_eight)|].
  split; [exact Hops|]. split; [exact Hrange|]. split; [exact Hroom|].
  exact (reader_after_writers 3 7 (fun _ => 0) tree_eight
           (proj1 wf_tree_eight) (proj2 wf_tree_eight) Hops Hrange Hroom).
Defined.

(** ** The writers of [main] in any order *)

Lemma two_writers_keys (ops : Z) :
  0 <= ops <= 100 ->
  fst <$> (writer_calls 1 (Z.to_nat ops) 0 ++ writer_calls 2 (Z.to_nat ops) 0) =
    ((fun j => 100 + j) <$> seqZ 0 ops) ++ ((fun j => 200 + j) <$> seqZ 0 ops).
Proof.
  intros Hops. rewrite fmap_app.
  rewrite !writer_calls_keys_plain by (unfold INT_MAX; lia).
  by rewrite Z2Nat.id by lia.
Qed.

Lemma two_writers_NoDup (ops : Z) :
  0 <= ops <= 100 ->
  NoDup (fst <$> (writer_calls 1 (Z.to_nat ops) 0 ++
                  writer_calls 2 (Z.to_nat ops) 0)).
Proof.
  intros Hops. rewrite two_writers_keys by done.
  apply NoDup_app. split_and!.
  - apply NoDup_fmap_2; [intros x y; lia|apply NoDup_seqZ].
  - intros x Hx1 Hx2.
    apply list_elem_of_fmap in Hx1 as (j1 & -> & Hj1%elem_of_seqZ).
    apply list_elem_of_fmap in Hx2 as (j2 & Heq & Hj2%elem_of_seqZ). lia.
  - apply NoDup_fmap_2; [intros x y; lia|apply NoDup_seqZ].
Qed.

(** X12: the calls of the two writers of [main] (ids 1 and 2, [ops] calls
    each, [ops] at most 100), run one call at a time in any order on a
    freshly initialised table of capacity at least [2 * ops], lose nothing:
    the count ends at [2 * ops] and [lsm_get] finds every key [100 + i] and
    [200 + i] with value ten times the key. *)
Theorem writers_any_order (ops cap : Z) (block : list Entry) (t0 : LSMTree)
    (calls : list (Z * Z)) :
  0 <= ops <= 100 ->
  2 * ops <= cap <= INT_MAX ->
  Z.of_nat (length block) = cap ->
  calls ≡ₚ writer_calls 1 (Z.to_nat ops) 0 ++ writer_calls 2 (Z.to_nat ops) 0 ->
  exists t log,
    (lsm_init (Some block) cap ;; lsm_add_all calls) t0 = Returns tt t log /\
    memtable_count t = 2 * ops /\
    forall i out, 0 <= i < ops ->
      lsm_get (100 + i) out t = Returns (1, (100 + i) * 10) t log_get /\
      lsm_get (200 + i) out t = Returns (1, (200 + i) * 10) t log_get.
Proof.
  intros Hops Hcap Hlen Hperm.
  destruct (lsm_init_inv t0 block cap) as (ti & Hrun0 & Hc0 & Hmax0 & Hal0 & Hinv0);
    [lia|done|].
  assert (Hcalls : Z.of_nat (length calls) = 2 * ops).
  { rewrite Hperm, length_app, !writer_calls_length. lia. }
  assert (Hkeys : forall k, k ∈ (fst <$> calls) <->
            exists j, 0 <= j < ops /\ (k = 100 + j \/ k = 200 + j)).
  { intros k. rewrite Hperm, two_writers_keys, elem_of_app by done.
    rewrite !list_elem_of_fmap. setoid_rewrite elem_of_seqZ. split.
    - intros [(j & -> & Hj)|(j & -> & Hj)]; exists j; split; try lia; eauto.
    - intros (j & Hj & [-> | ->]); [left|right]; exists j; split; try done; lia. }
  destruct (lsm_add_all_fresh calls ti Hal0 Hinv0)
    as (t & log & Hrun & Hcount & _); [lia| | |].
  { rewrite Hperm. by apply two_writers_NoDup. }
  { apply Forall_forall. intros kv _ i e Hi. lia. }
  destruct (calls_run_values calls ti Hal0 Hinv0)
    as (t2 & l2 & Hrun2 & _ & _ & Hvals); [lia| |].
  { rewrite Hperm. apply Forall_app. split; apply writer_calls_values. }
  rewrite Hrun in Hrun2. inversion Hrun2; subst t2 l2. clear Hrun2.
  exists t, ([RwlockInit] ++ log).
  split; [by apply (bind_returns _ _ t0 ti t tt tt)|]. split; [lia|].
  intros i out Hi.
  destruct (Hvals (100 + i)) as (i1 & e1 & Hfm1 & Hv1).
  { apply Hkeys. exists i. eauto. }
  destruct (Hvals (200 + i)) as (i2 & e2 & Hfm2 & Hv2).
  { apply Hkeys. exists i. eauto. }
  rewrite writer_value_plain in Hv1, Hv2
    by (unfold int_range, INT_MIN, INT_MAX in *; lia).
  rewrite <- Hv1, <- Hv2. split; by eapply lsm_get_hit.
Qed.

Lemma writers_any_order_witness :
  0 <= 2 <= 100 /\ 2 * 2 <= 5 <= INT_MAX /\
  Z.of_nat (length (replicate 5 (mkEntry 9 9 9))) = 5 /\
  [(200, 2000); (100, 1000); (201, 2010); (101, 1010)] ≡ₚ
    writer_calls 1 (Z.to_nat 2) 0 ++ writer_calls 2 (Z.to_nat 2) 0 /\
  exists t log,
    (lsm_init (Some (replicate 5 (mkEntry 9 9 9))) 5 ;;
     lsm_add_all [(200, 2000); (100, 1000); (201, 2010); (101, 1010)])
      tree_zero = Returns tt t log /\
    memtable_count t = 2 * 2 /\
    forall i out, 0 <= i < 2 ->
      lsm_get (100 + i) out t = Returns (1, (100 + i) * 10) t log_get /\
      lsm_get (200 + i) out t = Returns (1, (200 + i) * 10) t log_get.
Proof.
  assert (Hops : 0 <= 2 <= 100) by done.
  assert (Hcap : 2 * 2 <= 5 <= INT_MAX) by done.
  assert (Hlen : Z.of_nat (length (replicate 5 (mkEntry 9 9 9))) = 5) by done.
  assert (Hperm : [(200, 2000); (100, 1000); (201, 2010); (101, 1010)] ≡ₚ
            writer_calls 1 (Z.to_nat 2) 0 ++ writer_calls 2 (Z.to_nat 2) 0).
  { change (writer_calls 1 (Z.to_nat 2) 0 ++ writer_calls 2 (Z.to_nat 2) 0)
      with [(100, 1000); (101, 1010); (200, 2000); (201, 2010)].
    apply (Permutation_trans
             (l' := [(100, 1000); (200, 2000); (201, 2010); (101, 1010)]));
      [apply perm_swap|].
    apply perm_skip.
    apply (Permutation_trans (l' := [(200, 2000); (101, 1010); (201, 2010)]));
      [apply perm_skip, perm_swap|apply perm_swap]. }
  split; [exact Hops|]. split; [exact Hcap|]. split; [exact Hlen|].
  split; [exact Hperm|].
  exact (writers_any_order 2 5 _ tree_zero _ Hops Hcap Hlen Hperm).
Defined.

(** ** The report of [main] *)

Lemma stdout_lines_Stdout (lines : list string) :
  stdout_lines (Stdout <$> lines) = lines.
Proof.
  induction lines as [|x lines IH]; [done|].
  rewrite fmap_cons. simpl. by rewrite IH.
Qed.

Lemma report_loop_run (t : LSMTree) (todo n : nat) :
  (n + todo <= length (memtable t))%nat ->
  report_loop todo (Z.of_nat n) t =
    Returns tt t (Stdout <$> report_lines (take todo (drop n (memtable t)))).
Proof.
  revert n. induction todo as [|todo IH]; intros n Hlen; [done|].
  destruct (lookup_lt_is_Some_2 (memtable t) n) as [e He]; [lia|].
  simpl. unfold bind at 1. rewrite load_nat, He, (drop_S _ e n He). simpl.
  unfold report_lines. rewrite filter_cons.
  unfold bind at 1. rewrite succ_of_nat.
  destruct (Z.eqb_spec (in_use e) 0) as [Hz|Hnz].
  - rewrite decide_False by (intros H; by apply H).
    unfold ret. rewrite IH by lia. done.
  - rewrite decide_True by done. unfold printf, emit.
    rewrite IH by lia. done.
Qed.

Lemma slot_first_match (t : LSMTree) (i : nat) (e : Entry) :
  table_inv t -> Z.of_nat i < memtable_count t -> memtable t !! i = Some e ->
  first_match (key e) t i e.
Proof.
  intros [_ Hu _ Hd] Hi He. unfold first_match, match_at. split_and!; try done.
  - apply matches_true. eauto.
  - intros j e' Hj He'. destruct (matches (key e) e') eqn:Hm; [|done].
    apply matches_true in Hm as [Hu' Hk].
    assert (j = i) by (apply (Hd j i e' e); eauto). lia.
Qed.

(** X13: the report that ends [main] agrees with [lsm_get]: on a table of
    the invariant it prints the header with the count and then one line per
    slot below the count, in slot order, with the slot's key and value; the
    keys listed are pairwise distinct and [lsm_get] of each finds the value
    listed; the table is not changed. *)
Theorem main_report_lists_table (t : LSMTree) :
  allocated t -> table_inv t ->
  exists log,
    main_report t = Returns tt t log /\
    stdout_lines log =
      msg_final (memtable_count t) ::
      ((fun e => msg_entry (key e) (value e)) <$>
         take (Z.to_nat (memtable_count t)) (memtable t)) /\
    NoDup (key <$> take (Z.to_nat (memtable_count t)) (memtable t)) /\
    forall e out, e ∈ take (Z.to_nat (memtable_count t)) (memtable t) ->
      lsm_get (key e) out t = Returns (1, value e) t log_get.
Proof.
  intros Hal Hinv.
  assert (Hb : in_bounds t) by (by apply wf_in_bounds).
  destruct (Hinv) as [Hc Hu _ Hd].
  assert (Hall : filter (fun e => in_use e <> 0)
            (take (Z.to_nat (memtable_count t)) (memtable t)) =
          take (Z.to_nat (memtable_count t)) (memtable t)).
  { assert (H : Forall (fun e => in_use e <> 0)
              (take (Z.to_nat (memtable_count t)) (memtable t))).
    { apply Forall_forall. intros e (i & He & Hi)%elem_of_take.
      apply (Hu i); [done|lia]. }
    induction H as [|e l He _ IH]; [done|].
    by rewrite filter_cons_True, IH. }
  exists (Stdout (msg_final (memtable_count t)) ::
          (Stdout <$> report_lines
             (take (Z.to_nat (memtable_count t)) (memtable t)))).
  split_and!.
  - unfold main_report, bind, get_tree, printf, emit.
    change 0 with (Z.of_nat 0) at 1.
    rewrite report_loop_run by (unfold in_bounds in Hb; lia). done.
  - simpl. rewrite stdout_lines_Stdout. unfold report_lines. by rewrite Hall.
  - apply NoDup_alt. intros i j k Hi Hj.
    rewrite list_lookup_fmap in Hi, Hj.
    destruct (take _ _ !! i) as [ei|] eqn:Hei; [|done].
    destruct (take _ _ !! j) as [ej|] eqn:Hej; [|done].
    apply lookup_take_Some in Hei as [Hei Hilt].
    apply lookup_take_Some in Hej as [Hej Hjlt].
    simpl in Hi, Hj. apply (Hd i j ei ej); try done.
    + apply (Hu i); [done|lia].
    + apply (Hu j); [done|lia].
    + congruence.
  - intros e out (i & He & Hi)%elem_of_take.
    apply (lsm_get_hit _ out t i e). apply slot_first_match; try done. lia.
Qed.

Lemma main_report_lists_table_witness :
  allocated tree_full /\ table_inv tree_full /\
  exists log,
    main_report tree_full = Returns tt tree_full log /\
    stdout_lines log =
      msg_final (memtable_count tree_full) ::
      ((fun e => msg_entry (key e) (value e)) <$>
         take (Z.to_nat (memtable_count tree_full)) (memtable tree_full)) /\
    NoDup (key <$> take (Z.to_nat (memtable_count tree_full))
                     (memtable tree_full)) /\
    forall e out,
      e ∈ take (Z.to_nat (memtable_count tree_full)) (memtable tree_full) ->
      lsm_get (key e) out tree_full = Returns (1, value e) tree_full log_get.
Proof.
  split; [exact (proj1 wf_tree_full)|]. split; [exact (proj2 wf_tree_full)|].
  exact (main_report_lists_table tree_full
           (proj1 wf_tree_full) (proj2 wf_tree_full)).
Defined.

(** ** The outcomes of [lsm_init] and the output of [lsm_add] *)

(** X14: [lsm_init] has two outcomes.  When [malloc] returns [NULL] it writes
    the allocation message on the standard error stream and ends the process
    with [EXIT_FAILURE], without initialising the lock.  On a block of
    [max_entries] entries it returns, having initialised the lock once, a
    table of that capacity with count 0 in which every slot has flag 0 and
    the key and value the block came with. *)
Theorem lsm_init_outcomes (t0 : LSMTree) (block : list Entry)
    (max_entries : Z) :
  0 <= max_entries <= INT_MAX ->
  Z.of_nat (length block) = max_entries ->
  lsm_init None max_entries t0 =
    Exits EXIT_FAILURE [Stderr msg_alloc_failed] /\
  lsm_init (Some block) max_entries t0 =
    Returns tt {| memtable := with_in_use 0 <$> block;
                  memtable_max := max_entries; memtable_count := 0 |}
      [RwlockInit].
Proof.
  intros Hmax Hlen. split; [done|].
  destruct (lsm_init_ok t0 block max_entries Hmax Hlen)
    as (mem' & Hrun & Hlen' & Hmem').
  rewrite Hrun. do 2 f_equal. f_equal.
  apply list_eq. intros j. rewrite list_lookup_fmap.
  destruct (mem' !! j) as [e'|] eqn:He'.
  - by destruct (Hmem' j e' He') as (e & -> & ->).
  - apply lookup_ge_None in He'. rewrite Hlen' in He'.
    apply lookup_ge_None in He'. by rewrite He'.
Qed.

Lemma lsm_init_outcomes_witness :
  0 <= 2 <= INT_MAX /\ Z.of_nat (length block2) = 2 /\
  lsm_init None 2 tree_zero = Exits EXIT_FAILURE [Stderr msg_alloc_failed] /\
  lsm_init (Some block2) 2 tree_zero =
    Returns tt {| memtable := with_in_use 0 <$> block2;
                  memtable_max := 2; memtable_count := 0 |}
      [RwlockInit].
Proof.
  assert (Hmax : 0 <= 2 <= INT_MAX) by done.
  assert (Hlen : Z.of_nat (length block2) = 2) by done.
  split; [exact Hmax|]. split; [exact Hlen|].
  exact (lsm_init_outcomes tree_zero block2 2 Hmax Hlen).
Defined.

(** X15: every call of [lsm_add] prints the line "Writer: added key ...,
    value ..." once on the standard output, the calls that are refused
    because the table is full included. *)
Theorem lsm_add_prints_added_line (k v : Z) (t : LSMTree) :
  allocated t -> table_inv t ->
  exists t' log,
    lsm_add k v t = Returns tt t' log /\
    stdout_lines log = [msg_added k v] /\
    (rejected k t -> t' = t).
Proof.
  intros Hal Hinv.
  destruct (lsm_add_cases k v t Hal Hinv)
    as [(i & e & Hfm & Hrun & _)|[(Ha & Hlt & Hrun & _)|(Ha & Hge & Hrun)]];
    eexists _, _; (split; [exact Hrun|]); (split; [done|]).
  - intros [Ha _]. destruct (absent_not_present k t Ha).
    exists i, e. by destruct Hfm.
  - intros [_ Hfull]. lia.
  - done.
Qed.

Lemma lsm_add_prints_added_line_witness :
  allocated tree_full /\ table_inv tree_full /\
  exists t' log,
    lsm_add 3 30 tree_full = Returns tt t' log /\
    stdout_lines log = [msg_added 3 30] /\
    (rejected 3 tree_full -> t' = tree_full).
Proof.
  split; [exact (proj1 wf_tree_full)|]. split; [exact (proj2 wf_tree_full)|].
  exact (lsm_add_prints_added_line 3 30 tree_full
           (proj1 wf_tree_full) (proj2 wf_tree_full)).
Defined.
